(** * engine.py: the training engine of pytorch_helper_modules

    A shallow embedding of [train_step], [test_step] and [train] from
    [engine.py].  Tensor entries and Python floats are carried by real
    numbers; the softmax of the accuracy computation rounds every operation to
    float32, the sums and quotients of the metrics are exact.  The objects the
    engine is handed (model, loss function, optimizer, scheduler, data
    loaders) are parameters of the development, and the state they carry lives
    in an explicit [world] that is threaded through a state-and-exception
    monad. *)

From Stdlib Require Import List ZArith Reals Lra Lia Bool Arith.
From Stdlib Require Import Permutation.
From Stdlib.Strings Require Byte.
Import ListNotations.

Set Implicit Arguments.

(** ** Python values and exceptions *)

(** The exceptions the engine can raise.  [ZeroDivisionError] is Python's own,
    raised by [/] on an [int] or [float] with a zero divisor; [RuntimeError] is
    what torch raises on a shape mismatch or an unusable device; [IndexError]
    is what [torch.argmax] raises when the reduced dimension is empty;
    [AttributeError] is what [.item()] raises on a plain number. *)
Inductive exn : Type :=
  | ZeroDivisionError
  | RuntimeError
  | IndexError
  | AttributeError.

(** The accumulators of the engine start as the [int] 0 and become a 0-d tensor
    (the loss) or a [float] (the accuracy) once a batch has been added. *)
Inductive pyval : Type :=
  | PyInt (z : Z)
  | PyFloat (r : R)
  | Tensor (r : R).

Definition val_of (v : pyval) : R :=
  match v with
  | PyInt z => IZR z
  | PyFloat r => r
  | Tensor r => r
  end.

(** [a + b]: a tensor operand makes the sum a tensor, otherwise a float operand
    makes it a float. *)
Definition py_add (a b : pyval) : pyval :=
  match a, b with
  | PyInt x, PyInt y => PyInt (x + y)
  | Tensor x, _ => Tensor (x + val_of b)
  | _, Tensor y => Tensor (val_of a + y)
  | _, _ => PyFloat (val_of a + val_of b)
  end.

(** [a / n] for an [int] n.  Python numbers raise on a zero divisor; a tensor
    does not (torch would produce nan or inf there). *)
Definition py_truediv (a : pyval) (n : nat) : exn + pyval :=
  match a with
  | Tensor x => inr (Tensor (x / INR n))
  | _ => if Nat.eqb n 0 then inl ZeroDivisionError
         else inr (PyFloat (val_of a / INR n))
  end.

(** [v.item()] *)
Definition item (v : pyval) : exn + R :=
  match v with
  | Tensor r => inr r
  | _ => inl AttributeError
  end.

(** ** float32 *)

(** The model's logits are float32 tensors, and [torch.softmax] computes in
    float32: every operation returns the float32 number nearest to the exact
    result.  The exponent range is left unbounded (no overflow to infinity, no
    subnormal numbers). *)
Module Float32.

(** The binary exponent of a non-zero number: the [e] with
    [2^e <= |x| < 2^(e+1)]. *)
Definition exponent (x : R) : Z := Int_part (ln (Rabs x) / ln 2).

(** The distance of neighbouring float32 numbers around [x]: 24 significant
    bits. *)
Definition ulp (x : R) : R := powerRZ 2 (exponent x - 23).

(** The nearest integer, a tie going to the even one. *)
Definition nearest_even (x : R) : Z :=
  let n := Int_part x in
  if Rlt_dec (x - IZR n) (1 / 2) then n
  else if Rlt_dec (1 / 2) (x - IZR n) then (n + 1)%Z
  else if Z.even n then n else (n + 1)%Z.

(** Round to nearest, ties to even. *)
Definition round (x : R) : R :=
  if Req_dec_T x 0 then 0%R
  else (IZR (nearest_even (x / ulp x)) * ulp x)%R.

(** The unit roundoff [2^-24]. *)
Definition u : R := / 16777216.

End Float32.

(** ** The torch operations of the accuracy computation *)

Module Torch.

(** The largest entry of a row. *)
Definition row_max (row : list R) : R := fold_right Rmax (hd 0%R row) row.

(** [exp(x - max)], the numerator of the softmax of [x] in its row. *)
Definition shifted_exp (row : list R) (x : R) : R :=
  Float32.round (exp (Float32.round (x - row_max row))).

(** The sum of the numerators of a row. *)
Definition denominator (row : list R) : R :=
  fold_left (fun acc e => Float32.round (acc + e))
    (map (shifted_exp row) row) 0%R.

Definition softmax_entry (row : list R) (x : R) : R :=
  Float32.round (shifted_exp row x / denominator row).

(** [torch.softmax(t, dim=1)] on one row: the row's maximum is subtracted,
    the differences are exponentiated and divided by their sum. *)
Definition softmax_row (row : list R) : list R := map (softmax_entry row) row.

Definition softmax (t : list (list R)) : list (list R) := map softmax_row t.

(** The softmax keeps the strict order of the entries of a row. *)
Definition keeps_order (row : list R) : Prop :=
  forall a b : R, In a row -> In b row -> (a < b)%R ->
    (softmax_entry row a < softmax_entry row b)%R.

(** Index of the first maximal entry, scanning from index [i] with the best
    entry so far [best] at index [bi]. *)
Fixpoint argmax_from (best : R) (bi i : nat) (l : list R) : nat :=
  match l with
  | [] => bi
  | x :: l' =>
      if Rlt_dec best x then argmax_from x i (S i) l'
      else argmax_from best bi (S i) l'
  end.

(** [torch.argmax] over one row: the index of the first maximal value; an
    empty row is an error. *)
Definition argmax_row (row : list R) : exn + nat :=
  match row with
  | [] => inl IndexError
  | x :: l => inr (argmax_from x 0 1 l)
  end.

(** [torch.argmax(t, dim=1)] *)
Fixpoint argmax (t : list (list R)) : exn + list Z :=
  match t with
  | [] => inr []
  | row :: t' =>
      match argmax_row row with
      | inl e => inl e
      | inr i =>
          match argmax t' with
          | inl e => inl e
          | inr l => inr (Z.of_nat i :: l)
          end
      end
  end.

Fixpoint zip_eq (a b : list Z) : list bool :=
  match a, b with
  | x :: a', y :: b' => Z.eqb x y :: zip_eq a' b'
  | _, _ => []
  end.

(** [torch.eq(a, b)] on 1-d tensors, with broadcasting of a one-element
    operand; any other difference of sizes is an error. *)
Definition eq (a b : list Z) : exn + list bool :=
  if Nat.eqb (length a) (length b) then inr (zip_eq a b)
  else match a, b with
       | _, [y] => inr (map (fun x => Z.eqb x y) a)
       | [x], _ => inr (map (fun y => Z.eqb x y) b)
       | _, _ => inl RuntimeError
       end.

(** [t.sum().item()] of a boolean tensor: the number of [True] entries. *)
Definition sum_item (l : list bool) : nat := length (filter (fun b => b) l).

End Torch.

(** ** The world the engine acts on *)

Inductive device : Type := cpu | cuda.

(** The calls the engine makes on the objects it is handed, in the order it
    makes them. *)
Inductive event : Type :=
  | EModelTo (d : device)     (* model.to(device) *)
  | EIterate                  (* enumerate(loader) *)
  | EBatchTo (d : device)     (* x.to(device), y.to(device) *)
  | ETrainMode                (* model.train() *)
  | EEvalMode                 (* model.eval() *)
  | EForward                  (* model(x) *)
  | ELoss                     (* loss_fn(y_logits, y) *)
  | EZeroGrad                 (* optimizer.zero_grad() *)
  | EBackward                 (* loss.backward() *)
  | EOptimizerStep            (* optimizer.step() *)
  | ESchedulerStep            (* schedular.step() *)
  | EAccuracy                 (* argmax, softmax, eq, sum, item *)
  | ETqdmOpen (total : nat)   (* tqdm(range(epochs)) *)
  | ETqdmUpdate.              (* the bar moves on by one *)

Definition event_eqb (a b : event) : bool :=
  match a, b with
  | EModelTo cpu, EModelTo cpu | EModelTo cuda, EModelTo cuda => true
  | EBatchTo cpu, EBatchTo cpu | EBatchTo cuda, EBatchTo cuda => true
  | EIterate, EIterate | ETrainMode, ETrainMode | EEvalMode, EEvalMode
  | EForward, EForward | ELoss, ELoss | EZeroGrad, EZeroGrad
  | EBackward, EBackward | EOptimizerStep, EOptimizerStep
  | ESchedulerStep, ESchedulerStep | EAccuracy, EAccuracy
  | ETqdmUpdate, ETqdmUpdate => true
  | ETqdmOpen n, ETqdmOpen m => Nat.eqb n m
  | _, _ => false
  end.

Definition count_event (e : event) (t : list event) : nat :=
  length (filter (event_eqb e) t).

(** One printed progress line: the 1-based epoch number, then train loss,
    test loss, train accuracy, test accuracy, as the f-string orders them. *)
Record progress_line : Type := mkLine {
  line_epoch : nat;
  line_train_loss : R;
  line_test_loss : R;
  line_train_acc : R;
  line_test_acc : R
}.

(** The dictionary [train] returns. *)
Record result : Type := mkResult {
  train_loss : list R;
  train_acc : list R;
  test_loss : list R;
  test_acc : list R
}.

(** The scheduler object; its state (how often it was stepped) is in the
    world. *)
Inductive scheduler : Type := LRScheduler.

(** What the caller hands to the engine: the tensors' carrier types and the
    behaviour of the model, the loss function, the optimizer and the
    scheduler. *)
Class Collaborators : Type := {
  Input : Type;
  Params : Type;
  Buffers : Type;
  Grads : Type;
  OptState : Type;
  (** [model(x)]: the logits, one row per sample, and the buffers (running
      statistics) after the call; the first argument is [model.training]. *)
  forward : bool -> Params -> Buffers -> Input -> list (list R) * Buffers;
  (** [loss_fn(y_logits, y)] *)
  loss_fn : list (list R) -> list Z -> R;
  (** what [loss.backward()] adds to the [.grad] of the parameters *)
  gradient : Params -> Buffers -> Input -> list Z -> Grads;
  accumulate : option Grads -> Grads -> Grads;
  (** [optimizer.step()] *)
  optimizer_update : OptState -> Params -> option Grads -> OptState * Params;
  (** [schedular.step()] sets the optimizer's learning rate from its count. *)
  scheduler_update : nat -> OptState -> OptState;
  (** [torch.cuda.is_available()] *)
  cuda_is_available : bool
}.

Section Engine.

Context {C : Collaborators}.

Definition DEVICE : device := if cuda_is_available then cuda else cpu.

Definition device_usable (d : device) : bool :=
  match d with cpu => true | cuda => cuda_is_available end.

Definition batch : Type := (Input * list Z)%type.
Definition DataLoader : Type := list batch.

Record world : Type := mkWorld {
  w_params : Params;
  w_buffers : Buffers;
  w_grads : option Grads;
  w_training : bool;
  w_device : device;
  w_opt : OptState;
  w_opt_steps : nat;
  w_sched_steps : nat;
  w_trace : list event;
  w_stdout : list progress_line
}.

(** *** State and exceptions *)

Definition M (A : Type) : Type := world -> (exn + A) * world.

Definition ret {A} (a : A) : M A := fun w => (inr a, w).

Definition raise {A} (e : exn) : M A := fun w => (inl e, w).

Definition bind {A B} (m : M A) (k : A -> M B) : M B :=
  fun w =>
    match m w with
    | (inl e, w') => (inl e, w')
    | (inr a, w') => k a w'
    end.

Definition lift {A} (r : exn + A) : M A := fun w => (r, w).

Definition modify (f : world -> world) : M unit := fun w => (inr tt, f w).

Definition gets {A} (f : world -> A) : M A := fun w => (inr (f w), w).

Notation "x <- m ;; k" := (bind m (fun x => k))
  (at level 61, m at next level, right associativity).
Notation "m ;; k" := (bind m (fun _ => k))
  (at level 61, right associativity).
Notation "' pat <- m ;; k" := (bind m (fun x => match x with pat => k end))
  (at level 61, pat pattern, m at next level, right associativity).

(** [for a in l: acc = body(acc, a)] *)
Fixpoint for_each {A S} (l : list A) (body : S -> A -> M S) (acc : S) : M S :=
  match l with
  | [] => ret acc
  | a :: l' => acc' <- body acc a ;; for_each l' body acc'
  end.

(** *** The calls on the collaborators *)

Definition log (e : event) (w : world) : world :=
  mkWorld (w_params w) (w_buffers w) (w_grads w) (w_training w) (w_device w)
          (w_opt w) (w_opt_steps w) (w_sched_steps w)
          (w_trace w ++ [e]) (w_stdout w).

Definition emit (e : event) : M unit := modify (log e).

Definition model_to (d : device) : M unit :=
  emit (EModelTo d) ;;
  if device_usable d then
    modify (fun w =>
      mkWorld (w_params w) (w_buffers w) (w_grads w) (w_training w) d
              (w_opt w) (w_opt_steps w) (w_sched_steps w)
              (w_trace w) (w_stdout w))
  else raise RuntimeError.

Definition batch_to (d : device) : M unit :=
  emit (EBatchTo d) ;;
  if device_usable d then ret tt else raise RuntimeError.

Definition set_training (mode : bool) : M unit :=
  emit (if mode then ETrainMode else EEvalMode) ;;
  modify (fun w =>
    mkWorld (w_params w) (w_buffers w) (w_grads w) mode (w_device w)
            (w_opt w) (w_opt_steps w) (w_sched_steps w)
            (w_trace w) (w_stdout w)).

Definition model_call (x : Input) : M (list (list R)) :=
  emit EForward ;;
  fun w =>
    let '(y_logits, b') := forward (w_training w) (w_params w) (w_buffers w) x in
    (inr y_logits,
     mkWorld (w_params w) b' (w_grads w) (w_training w) (w_device w)
             (w_opt w) (w_opt_steps w) (w_sched_steps w)
             (w_trace w) (w_stdout w)).

Definition call_loss (y_logits : list (list R)) (y : list Z) : M R :=
  emit ELoss ;; ret (loss_fn y_logits y).

Definition zero_grad : M unit :=
  emit EZeroGrad ;;
  modify (fun w =>
    mkWorld (w_params w) (w_buffers w) None (w_training w) (w_device w)
            (w_opt w) (w_opt_steps w) (w_sched_steps w)
            (w_trace w) (w_stdout w)).

Definition backward (x : Input) (y : list Z) : M unit :=
  emit EBackward ;;
  modify (fun w =>
    mkWorld (w_params w) (w_buffers w)
            (Some (accumulate (w_grads w)
                     (gradient (w_params w) (w_buffers w) x y)))
            (w_training w) (w_device w)
            (w_opt w) (w_opt_steps w) (w_sched_steps w)
            (w_trace w) (w_stdout w)).

Definition optimizer_step : M unit :=
  emit EOptimizerStep ;;
  modify (fun w =>
    let '(o', p') := optimizer_update (w_opt w) (w_params w) (w_grads w) in
    mkWorld p' (w_buffers w) (w_grads w) (w_training w) (w_device w)
            o' (S (w_opt_steps w)) (w_sched_steps w)
            (w_trace w) (w_stdout w)).

Definition scheduler_step : M unit :=
  emit ESchedulerStep ;;
  modify (fun w =>
    mkWorld (w_params w) (w_buffers w) (w_grads w) (w_training w) (w_device w)
            (scheduler_update (S (w_sched_steps w)) (w_opt w))
            (w_opt_steps w) (S (w_sched_steps w))
            (w_trace w) (w_stdout w)).

Definition print (l : progress_line) : M unit :=
  modify (fun w =>
    mkWorld (w_params w) (w_buffers w) (w_grads w) (w_training w) (w_device w)
            (w_opt w) (w_opt_steps w) (w_sched_steps w)
            (w_trace w) (w_stdout w ++ [l])).

(** [torch.eq(y, y_pred).sum().item() / len(y)] with
    [y_pred = torch.argmax(torch.softmax(y_logits, dim=1), dim=1)]:
    an [int] divided by an [int]. *)
Definition accuracy_of (y_pred : exn + list Z) (y : list Z) : exn + R :=
  match y_pred with
  | inl e => inl e
  | inr p =>
      match Torch.eq y p with
      | inl e => inl e
      | inr eqs =>
          if Nat.eqb (length y) 0 then inl ZeroDivisionError
          else inr (INR (Torch.sum_item eqs) / INR (length y))%R
      end
  end.

Definition accuracy (y_logits : list (list R)) (y : list Z) : M R :=
  emit EAccuracy ;;
  lift (accuracy_of (Torch.argmax (Torch.softmax y_logits)) y).

(** *** train_step *)

(** The body of the loop of [train_step] up to the two [+=]: the loss and
    the accuracy of one batch. *)
Definition train_batch (schedular : option scheduler) (d : device)
    (b : batch) : M (R * R) :=
  let '(x, y) := b in
  batch_to d ;;
  set_training true ;;
  y_logits <- model_call x ;;
  loss <- call_loss y_logits y ;;
  zero_grad ;;
  backward x y ;;
  optimizer_step ;;
  match schedular with
  | Some _ => scheduler_step
  | None => ret tt
  end ;;
  acc <- accuracy y_logits y ;;
  ret (loss, acc).

(** [total_loss += loss; total_acc += acc] *)
Definition add_metrics (totals : pyval * pyval) (m : R * R) : pyval * pyval :=
  (py_add (fst totals) (Tensor (fst m)), py_add (snd totals) (PyFloat (snd m))).

(** [total / len(loader)] for both totals, the loss first. *)
Definition average (totals : pyval * pyval) (n : nat) : M (pyval * pyval) :=
  l <- lift (py_truediv (fst totals) n) ;;
  a <- lift (py_truediv (snd totals) n) ;;
  ret (l, a).

Definition train_step (schedular : option scheduler) (d : device)
    (trainloader : DataLoader) : M (pyval * pyval) :=
  model_to d ;;
  emit EIterate ;;
  totals <- for_each trainloader
              (fun totals b =>
                 m <- train_batch schedular d b ;; ret (add_metrics totals m))
              (PyInt 0, PyInt 0) ;;
  average totals (length trainloader).

(** *** test_step *)

Definition test_batch (d : device) (b : batch) : M (R * R) :=
  let '(x, y) := b in
  batch_to d ;;
  set_training false ;;
  y_logits <- model_call x ;;
  loss <- call_loss y_logits y ;;
  acc <- accuracy y_logits y ;;
  ret (loss, acc).

Definition test_step (d : device) (testloader : DataLoader)
    : M (pyval * pyval) :=
  model_to d ;;
  emit EIterate ;;
  totals <- for_each testloader
              (fun totals b =>
                 m <- test_batch d b ;; ret (add_metrics totals m))
              (PyInt 0, PyInt 0) ;;
  average totals (length testloader).

(** *** train *)

Definition empty_result : result := mkResult [] [] [] [].

(** The body of the epoch loop.  [schedular] is a parameter of [train] but
    the call of [train_step] does not hand it on, so [train_step] runs with
    its default, [None]. *)
Definition train_epoch (d : device) (trainloader testloader : DataLoader)
    (res : result) (epoch : nat) : M result :=
  '(trl, tra) <- train_step None d trainloader ;;
  '(tel, tea) <- test_step d testloader ;;
  print (mkLine (epoch + 1) (val_of trl) (val_of tel) (val_of tra) (val_of tea)) ;;
  l1 <- lift (item trl) ;;
  l2 <- lift (item tel) ;;
  emit ETqdmUpdate ;;
  ret (mkResult (train_loss res ++ [l1]) (train_acc res ++ [val_of tra])
                (test_loss res ++ [l2]) (test_acc res ++ [val_of tea])).

Definition train (schedular : option scheduler) (epochs : Z) (d : device)
    (trainloader testloader : DataLoader) : M result :=
  emit (ETqdmOpen (Z.to_nat epochs)) ;;
  for_each (seq 0 (Z.to_nat epochs)) (train_epoch d trainloader testloader)
    empty_result.

(** *** The per-batch values a pass produces, for stating the averages *)

(** Runs [body] over the batches and collects what it returns. *)
Fixpoint collect {A B} (body : A -> M B) (l : list A) : M (list B) :=
  match l with
  | [] => ret []
  | a :: l' => v <- body a ;; vs <- collect body l' ;; ret (v :: vs)
  end.

Definition train_values (schedular : option scheduler) (d : device)
    (trainloader : DataLoader) : M (list (R * R)) :=
  model_to d ;; emit EIterate ;; collect (train_batch schedular d) trainloader.

Definition test_values (d : device) (testloader : DataLoader)
    : M (list (R * R)) :=
  model_to d ;; emit EIterate ;; collect (test_batch d) testloader.

(** [a + b + ...] from the left, as a chain of [+=] adds. *)
Definition total (l : list R) : R := fold_left Rplus l 0%R.

(** The model answers with one row of scores per label of the batch. *)
Definition aligned (b : batch) : Prop :=
  forall mode p bu,
    length (fst (forward mode p bu (fst b))) = length (snd b).

(** A batch as the data loader is meant to deliver it: at least one sample,
    one row of scores per label, at least one class. *)
Definition well_shaped (b : batch) : Prop :=
  snd b <> [] /\ aligned b /\
  forall mode p bu,
    Forall (fun row => row <> []) (fst (forward mode p bu (fst b))).

(** The world at the start of the loop of a pass: the model has been moved
    and the loader is being iterated. *)
Definition enter_pass (d : device) (w : world) : world :=
  mkWorld (w_params w) (w_buffers w) (w_grads w) (w_training w) d
          (w_opt w) (w_opt_steps w) (w_sched_steps w)
          (w_trace w ++ [EModelTo d; EIterate]) (w_stdout w).

(** An observation of the world that cannot tell which buffers, mode,
    device and trace the model was left with: all an evaluation pass may
    change. *)
Definition untouched_by_eval {X} (f : world -> X) : Prop :=
  forall w b t d tr,
    f (mkWorld (w_params w) b (w_grads w) t d (w_opt w) (w_opt_steps w)
               (w_sched_steps w) tr (w_stdout w)) = f w.

(** An observation that only looks at the scheduler and at what was
    printed. *)
Definition untouched_by_training {X} (f : world -> X) : Prop :=
  forall w p b g t d o n tr,
    f (mkWorld p b g t d o n (w_sched_steps w) tr (w_stdout w)) = f w.

(** The calls [test_batch] makes on one batch. *)
Definition test_batch_events (d : device) : list event :=
  [EBatchTo d; EEvalMode; EForward; ELoss; EAccuracy].

(** The calls [train_batch] makes on one batch. *)
Definition train_batch_events (schedular : option scheduler) (d : device)
    : list event :=
  [EBatchTo d; ETrainMode; EForward; ELoss; EZeroGrad; EBackward;
   EOptimizerStep]
  ++ match schedular with Some _ => [ESchedulerStep] | None => [] end
  ++ [EAccuracy].

(** *** One training batch, step by step

    The steps the specification lists for one batch, as functions of the
    world the batch starts in; [train_step] is compared with them. *)

(** Steps 1, 2 and 7: the logits of the forward pass in training mode, the
    loss of these logits and the labels, and the accuracy
    [count(argmax(softmax(logits)) == labels) / batch_size]. *)
Definition batch_metrics (b : batch) (w : world) : R * (exn + R) :=
  let y_logits := fst (forward true (w_params w) (w_buffers w) (fst b)) in
  (loss_fn y_logits (snd b),
   accuracy_of (Torch.argmax (Torch.softmax y_logits)) (snd b)).

(** Steps 3 to 6: the gradients are cleared, then they are those of this
    batch's loss; the optimizer updates the parameters with them, once; after
    that the scheduler, if there is one, updates the optimizer's state. *)
Definition after_batch (schedular : option scheduler) (d : device)
    (b : batch) (w : world) : world :=
  let buffers := snd (forward true (w_params w) (w_buffers w) (fst b)) in
  let cleared : option Grads := None in
  let grads :=
    Some (accumulate cleared (gradient (w_params w) buffers (fst b) (snd b))) in
  let updated := optimizer_update (w_opt w) (w_params w) grads in
  mkWorld (snd updated) buffers grads true (w_device w)
    (match schedular with
     | Some _ => scheduler_update (S (w_sched_steps w)) (fst updated)
     | None => fst updated
     end)
    (S (w_opt_steps w))
    (match schedular with
     | Some _ => S (w_sched_steps w)
     | None => w_sched_steps w
     end)
    (w_trace w ++ train_batch_events schedular d) (w_stdout w).

(** The metrics of the batches of a pass, each computed in the world the
    batches before it have left. *)
Fixpoint pass_metrics (schedular : option scheduler) (d : device)
    (l : DataLoader) (w : world) : list (R * (exn + R)) :=
  match l with
  | [] => []
  | b :: l' =>
      batch_metrics b w :: pass_metrics schedular d l' (after_batch schedular d b w)
  end.

(** The world after the batches of a pass. *)
Definition after_pass (schedular : option scheduler) (d : device)
    (l : DataLoader) (w : world) : world :=
  fold_left (fun w1 b => after_batch schedular d b w1) l w.

End Engine.

(** ** A small concrete setting

    A model that answers with its input as the logits and counts its forward
    passes in training mode, a loss of 2 per sample, plain gradient descent on
    an integer parameter, and no accelerator. *)
Module Demo.

Definition demo : Collaborators := {|
  Input := list (list R);
  Params := Z;
  Buffers := nat;
  Grads := Z;
  OptState := Z;
  forward := fun mode _ seen x => (x, if mode then S seen else seen);
  loss_fn := fun _ y => (2 * INR (length y))%R;
  gradient := fun _ _ _ _ => 1%Z;
  accumulate := fun g dg => match g with Some g0 => (g0 + dg)%Z | None => dg end;
  optimizer_update := fun lr p g =>
    (lr, match g with Some g0 => (p - lr * g0)%Z | None => p end);
  scheduler_update := fun n _ => Z.of_nat n;
  cuda_is_available := false
|}.

Definition w0 : @world demo :=
  @mkWorld demo 10%Z 0%nat None false cpu 1%Z 0 0 [] [].

(** One sample, classified correctly; its loss is 2. *)
Definition b1 : @batch demo := ([[1; 0]]%R, [0%Z]).

(** Two samples, the first one misclassified; their loss is 4. *)
Definition b2 : @batch demo := ([[0; 1]; [1; 0]]%R, [0%Z; 0%Z]).

(** A batch without samples. *)
Definition b_empty : @batch demo := ([], []).

(** Two rows of scores for a single label. *)
Definition b_wide : @batch demo := ([[1; 0]; [1; 0]]%R, [0%Z]).

End Demo.

(** ** datasetup.py: building the two loaders

    [datasets.ImageFolder] and [DataLoader] belong to torchvision and torch.
    What reading a directory gives is a parameter; of a [DataLoader] the
    model keeps what torch documents about it: the checks of its constructor
    on [batch_size] and [num_workers], its length, and the way its batch
    sampler cuts the sequence of samples into batches ([drop_last] is left at
    its default, [False]). *)
Module DataSetup.

(** The exceptions of [create_dataloader]. *)
Inductive error : Type :=
  | FileNotFoundError    (* ImageFolder: no such directory, no class, no file *)
  | ValueError.          (* DataLoader: a bad batch_size or num_workers;
                            islice: a batch_size above sys.maxsize *)

(** What [ImageFolder] holds: the class names and the samples, each with the
    index of its class. *)
Record folder (Name Image : Type) : Type := mkFolder {
  classes : list Name;
  samples : list (Image * Z)
}.

(** A [DataLoader] object. *)
Record loader (Name Image Sample : Type) : Type := mkLoader {
  dataset : folder Name Image;
  transform : Image -> Sample;
  batch_size : Z;
  shuffle : bool
}.

(** The batch sampler: samples are gathered in [cur] (latest first) until
    there are [bs] of them, then the batch is yielded; what is left at the end
    is yielded as a last, shorter batch. *)
Fixpoint batches_from {A} (bs : nat) (cur : list A) (l : list A)
    : list (list A) :=
  match l with
  | [] => match cur with [] => [] | _ :: _ => [rev cur] end
  | a :: l' =>
      if Nat.eqb (length (a :: cur)) bs
      then rev (a :: cur) :: batches_from bs [] l'
      else batches_from bs (a :: cur) l'
  end.

Section Loaders.

Variables Dir Name Image Sample : Type.

(** [datasets.ImageFolder(dir, transform=transform)] *)
Variable ImageFolder : Dir -> error + folder Name Image.

(** [DataLoader(data, batch_size=..., num_workers=..., shuffle=...)] *)
Definition DataLoader (data : folder Name Image) (transform : Image -> Sample)
    (batch_size num_workers : Z) (shuffle : bool)
    : error + loader Name Image Sample :=
  if (num_workers <? 0)%Z then inl ValueError
  else if (batch_size <=? 0)%Z then inl ValueError
  else inr (mkLoader data transform batch_size shuffle).

(** [len(loader)] *)
Definition len (dl : loader Name Image Sample) : nat :=
  (length (samples (dataset dl)) + Z.to_nat (batch_size dl) - 1)
  / Z.to_nat (batch_size dl).

(** [sys.maxsize] on a 64-bit platform. *)
Definition sys_maxsize : Z := 9223372036854775807.

(** The batches of inputs and of labels that one iteration over the loader
    yields.  [sigma] is the order the random sampler draws for this
    iteration; it is used only when the loader shuffles. *)
Definition batches_of (sigma : list (Image * Z) -> list (Image * Z))
    (dl : loader Name Image Sample) : list (list Sample * list Z) :=
  map (fun b => (map (fun s => transform dl (fst s)) b, map snd b))
      (batches_from (Z.to_nat (batch_size dl)) []
         (if shuffle dl then sigma (samples (dataset dl))
          else samples (dataset dl))).

(** One iteration over the loader.  The batch sampler takes each batch with
    [itertools.islice(sampler_iter, batch_size)], which raises [ValueError]
    for a count above [sys.maxsize]; the constructor of the loader does not
    check this. *)
Definition iterate (sigma : list (Image * Z) -> list (Image * Z))
    (dl : loader Name Image Sample) : error + list (list Sample * list Z) :=
  if (sys_maxsize <? batch_size dl)%Z then inl ValueError
  else inr (batches_of sigma dl).

Definition create_dataloader (train_dir test_dir : Dir)
    (transform : Image -> Sample) (batch_size num_workers : Z)
    : error + (loader Name Image Sample * loader Name Image Sample
               * list Name) :=
  match ImageFolder train_dir with
  | inl e => inl e
  | inr train_data =>
      match ImageFolder test_dir with
      | inl e => inl e
      | inr test_data =>
          let class_names := classes train_data in
          match DataLoader train_data transform batch_size num_workers true with
          | inl e => inl e
          | inr trainloader =>
              match DataLoader test_data transform batch_size num_workers
                      false with
              | inl e => inl e
              | inr testloader => inr (trainloader, testloader, class_names)
              end
          end
      end
  end.

End Loaders.

(** Two folders for trying things out: three classes and five samples to
    train on, two classes and three samples to test on; images are
    numbers and the transform doubles them. *)
Inductive demo_dir : Type := train_dir | test_dir | missing_dir.

Inductive demo_class : Type := pizza | steak | sushi.

Definition demo_folder (d : demo_dir) : error + folder demo_class nat :=
  match d with
  | train_dir =>
      inr (mkFolder [pizza; steak; sushi]
             [(10, 0%Z); (11, 0%Z); (20, 1%Z); (30, 2%Z); (31, 2%Z)])
  | test_dir =>
      inr (mkFolder [pizza; steak]
             [(12, 0%Z); (21, 1%Z); (22, 1%Z)])
  | missing_dir => inl FileNotFoundError
  end.

Definition demo_transform (i : nat) : nat := 2 * i.

(** The batches of one iteration as the engine receives them: [collate]
    stacks the samples of a batch into one input. *)
Definition collated {C : Collaborators} {Sample}
    (collate : list Sample -> Input) (bs : list (list Sample * list Z))
    : list batch :=
  map (fun b => (collate (fst b), snd b)) bs.

(** Folders whose images already are rows of scores, for the model of
    [Demo] that answers with its input; every class has a sample. *)
Definition score_folder (d : demo_dir) : error + folder demo_class (list R) :=
  match d with
  | train_dir =>
      inr (mkFolder [pizza; steak]
             [([1; 0]%R, 0%Z); ([0; 1]%R, 1%Z); ([1; 0]%R, 1%Z)])
  | test_dir =>
      inr (mkFolder [pizza; steak] [([1; 0]%R, 0%Z); ([0; 1]%R, 1%Z)])
  | missing_dir => inl FileNotFoundError
  end.

End DataSetup.

(** ** data.py: fetching the data set

    The script acts on three places below the working directory: [data], the
    folder [data/pizza_sushi_steak] and the archive
    [data/pizza_steak_sushi.zip].  The disk is modelled as far as those
    places go; the response of the server, the decoding of a zip archive and
    what can go wrong when zipfile writes a member are parameters.  Files
    below the folder are kept by their path relative to it. *)
Module DataScript.

Definition bytes : Type := list Byte.byte.

(** What is at the path of the archive. *)
Inductive node : Type :=
  | Absent
  | File (content : bytes)
  | Directory.

(** What is at [data/pizza_sushi_steak]: nothing, a regular file, or a
    directory with its files (the latest write of a path first). *)
Inductive main_state : Type :=
  | NoMain
  | MainIsFile
  | MainDir (files : list (bytes * bytes)).

(** What is at [data]. *)
Inductive disk : Type :=
  | NoData
  | DataIsFile
  | DataDir (main : main_state) (archive : node).

Inductive message : Type :=
  | SkippingFolder    (* 'skipping creating the folder' *)
  | CreatingFolder    (* 'Creating the folder...' *)
  | Downloading       (* 'Downloading the data...' *)
  | Unzipping         (* 'Unzipping the data...' *)
  | RemovedZip.       (* 'Removed the zip file' *)

Inductive error : Type :=
  | FileNotFoundError
  | NotADirectoryError
  | FileExistsError
  | IsADirectoryError
  | RequestException
  | BadZipFile.

Record state : Type := mkState {
  fs : disk;
  stdout : list message
}.

Definition print (m : message) (s : state) : state :=
  mkState (fs s) (stdout s ++ [m]).

Definition on_disk (d : disk) (s : state) : state := mkState d (stdout s).

Fixpoint bytes_eqb (a b : bytes) : bool :=
  match a, b with
  | [], [] => true
  | x :: a', y :: b' => Byte.eqb x y && bytes_eqb a' b'
  | _, _ => false
  end.

(** The content of the file at a path below the folder. *)
Fixpoint lookup (p : bytes) (files : list (bytes * bytes)) : option bytes :=
  match files with
  | [] => None
  | (q, c) :: files' => if bytes_eqb p q then Some c else lookup p files'
  end.

(** The files below the folder once all [members] have been written, in the
    order of the archive, a later one over an earlier one of the same
    path. *)
Definition written (members : list (bytes * bytes))
    (files : list (bytes * bytes)) : list (bytes * bytes) :=
  fold_left (fun fs m => m :: fs) members files.

Section Script.

(** [requests.get(url=url_, timeout=10).content], or [None] when the request
    raises. *)
Variable response : option bytes.

(** The members of a zip archive, [None] for bytes that are no archive. *)
Variable members : bytes -> option (list (bytes * bytes)).

(** What goes wrong, if anything, when zipfile writes one member below the
    folder: the exception it raises and the files that are there at that
    moment.  A member cannot be written when its path runs through a regular
    file or names a directory, or when its data fail their checksum. *)
Variable write_failure :
  bytes * bytes -> list (bytes * bytes) -> option (error * list (bytes * bytes)).

(** [zip_ref.extractall(main_path)]: the members are written in the order of
    the archive, up to the first one that cannot be written. *)
Fixpoint extractall (ms : list (bytes * bytes)) (files : list (bytes * bytes))
    : (error + unit) * list (bytes * bytes) :=
  match ms with
  | [] => (inr tt, files)
  | m :: ms' =>
      match write_failure m files with
      | Some (e, files') => (inl e, files')
      | None => extractall ms' (m :: files)
      end
  end.

(** [if main_path.is_dir(): print(...) else: main_path.mkdir(parents=True,
    exist_ok=True); print(...)] *)
Definition ensure_folder (s : state) : (error + unit) * state :=
  match fs s with
  | DataDir (MainDir _) _ => (inr tt, print SkippingFolder s)
  | DataDir NoMain z =>
      (inr tt, print CreatingFolder (on_disk (DataDir (MainDir []) z) s))
  | DataDir MainIsFile _ => (inl FileExistsError, s)
  | NoData =>
      (inr tt, print CreatingFolder (on_disk (DataDir (MainDir []) Absent) s))
  | DataIsFile => (inl NotADirectoryError, s)
  end.

(** [with open(zip, 'wb') as f: request = requests.get(...);
    f.write(request.content); print(...)]: the file is created, or emptied,
    before the request is made. *)
Definition download (s : state) : (error + unit) * state :=
  match fs s with
  | NoData => (inl FileNotFoundError, s)
  | DataIsFile => (inl NotADirectoryError, s)
  | DataDir m Directory => (inl IsADirectoryError, s)
  | DataDir m _ =>
      match response with
      | None => (inl RequestException, on_disk (DataDir m (File [])) s)
      | Some content =>
          (inr tt, print Downloading (on_disk (DataDir m (File content)) s))
      end
  end.

(** [with zipfile.ZipFile(zip, 'r') as zip_ref: print(...);
    zip_ref.extractall(main_path)]: an archive that cannot be opened raises
    before the message, a member that cannot be written after it. *)
Definition unzip (s : state) : (error + unit) * state :=
  match fs s with
  | NoData => (inl FileNotFoundError, s)
  | DataIsFile => (inl NotADirectoryError, s)
  | DataDir m Absent => (inl FileNotFoundError, s)
  | DataDir m Directory => (inl IsADirectoryError, s)
  | DataDir m (File content) =>
      match members content with
      | None => (inl BadZipFile, s)
      | Some ms =>
          match m, ms with
          | MainDir files, _ =>
              let (r, files') := extractall ms files in
              (r, print Unzipping
                    (on_disk (DataDir (MainDir files') (File content)) s))
          | _, [] => (inr tt, print Unzipping s)
          | NoMain, _ =>
              let (r, files') := extractall ms [] in
              (r, print Unzipping
                    (on_disk (DataDir (MainDir files') (File content)) s))
          | MainIsFile, _ => (inl NotADirectoryError, print Unzipping s)
          end
      end
  end.

(** [os.remove(zip); print(...)] *)
Definition remove_archive (s : state) : (error + unit) * state :=
  match fs s with
  | NoData => (inl FileNotFoundError, s)
  | DataIsFile => (inl NotADirectoryError, s)
  | DataDir m Absent => (inl FileNotFoundError, s)
  | DataDir m Directory => (inl IsADirectoryError, s)
  | DataDir m (File _) => (inr tt, print RemovedZip (on_disk (DataDir m Absent) s))
  end.

Definition and_then (step1 step2 : state -> (error + unit) * state)
    (s : state) : (error + unit) * state :=
  match step1 s with
  | (inl e, s') => (inl e, s')
  | (inr _, s') => step2 s'
  end.

(** The whole of data.py. *)
Definition script : state -> (error + unit) * state :=
  and_then ensure_folder (and_then download (and_then unzip remove_archive)).

End Script.

(** The files of a disk below the folder, if the folder is there. *)
Definition files_of (d : disk) : option (list (bytes * bytes)) :=
  match d with
  | DataDir (MainDir files) _ => Some files
  | _ => None
  end.

Definition archive_of (d : disk) : node :=
  match d with
  | DataDir _ z => z
  | _ => Absent
  end.

(** The files already below the folder, none if the folder is not there. *)
Definition existing (d : disk) : list (bytes * bytes) :=
  match files_of d with Some files => files | None => [] end.

(** Nothing is in the way of the script: [data] is no regular file, the
    folder is no regular file, the path of the archive is no directory. *)
Definition startable (d : disk) : bool :=
  match d with
  | NoData => true
  | DataIsFile => false
  | DataDir MainIsFile _ => false
  | DataDir _ Directory => false
  | DataDir _ _ => true
  end.

(** The first line the script prints. *)
Definition first_message (d : disk) : message :=
  match d with
  | DataDir (MainDir _) _ => SkippingFolder
  | _ => CreatingFolder
  end.

(** A server that answers with a two-member archive, and its decoding. *)
Definition demo_archive : bytes := [Byte.x50; Byte.x4b].

(** An archive with the members [a] and [a/b]. *)
Definition clashing_archive : bytes := [Byte.x50; Byte.x4b; Byte.x03].

Definition demo_members (content : bytes) : option (list (bytes * bytes)) :=
  if bytes_eqb content demo_archive
  then Some [([Byte.x61], [Byte.x01]); ([Byte.x62], [Byte.x02])]
  else if bytes_eqb content clashing_archive
  then Some [([Byte.x61], [Byte.x01]);
             ([Byte.x61; Byte.x2f; Byte.x62], [Byte.x02])]
  else None.

(** [p] begins with [q]. *)
Fixpoint starts_with (p q : bytes) : bool :=
  match q, p with
  | [], _ => true
  | y :: q', x :: p' => Byte.eqb x y && starts_with p' q'
  | _ :: _, [] => false
  end.

(** A member cannot be written when a regular file is on its path. *)
Definition demo_write_failure (m : bytes * bytes)
    (files : list (bytes * bytes)) : option (error * list (bytes * bytes)) :=
  if existsb (fun f => starts_with (fst m) (fst f ++ [Byte.x2f])) files
  then Some (NotADirectoryError, files)
  else None.

End DataScript.

(** ** Rounding to float32 *)

Module Float32Facts.
Import Float32.
Local Open Scope R_scope.

Lemma ln2_pos : 0 < ln 2.
Proof. pose proof ln_lt_2. lra. Qed.

Lemma Int_part_IZR k : Int_part (IZR k) = k.
Proof. symmetry. apply Int_part_spec. lra. Qed.

Lemma nearest_even_IZR k : nearest_even (IZR k) = k.
Proof.
  unfold nearest_even. rewrite Int_part_IZR.
  destruct (Rlt_dec (IZR k - IZR k) (1 / 2)) as [_|H]; [reflexivity|lra].
Qed.

Lemma nearest_even_error x : Rabs (IZR (nearest_even x) - x) <= 1 / 2.
Proof.
  unfold nearest_even. destruct (base_Int_part x) as [Hl Hu].
  set (n := Int_part x) in *.
  destruct (Rlt_dec (x - IZR n) (1 / 2)) as [H1|H1].
  - apply Rabs_le. lra.
  - destruct (Rlt_dec (1 / 2) (x - IZR n)) as [H2|H2].
    + rewrite plus_IZR. apply Rabs_le. lra.
    + destruct (Z.even n); [|rewrite plus_IZR]; apply Rabs_le; lra.
Qed.



Lemma powerRZ_exp e : powerRZ 2 e = exp (IZR e * ln 2).
Proof. rewrite powerRZ_Rpower by lra. reflexivity. Qed.

Lemma exponent_pow2 e : exponent (powerRZ 2 e) = e.
Proof.
  unfold exponent. rewrite Rabs_pos_eq by (apply powerRZ_le; lra).
  rewrite powerRZ_exp, ln_exp.
  replace (IZR e * ln 2 / ln 2) with (IZR e)
    by (field; pose proof ln2_pos; lra).
  apply Int_part_IZR.
Qed.

Lemma exponent_opp x : exponent (- x) = exponent x.
Proof. unfold exponent. now rewrite Rabs_Ropp. Qed.

Lemma ulp_pos x : 0 < ulp x.
Proof. apply powerRZ_lt. lra. Qed.

Lemma powerRZ_split e : powerRZ 2 e = 8388608 * powerRZ 2 (e - 23).
Proof.
  replace e with (23 + (e - 23))%Z at 1 by lia.
  rewrite powerRZ_add by lra. f_equal.
  change (powerRZ 2 23) with (2 ^ 23). lra.
Qed.

Lemma round_0 : round 0 = 0.
Proof. unfold round. destruct (Req_dec_T 0 0); [reflexivity|contradiction]. Qed.


Lemma round_opp_pow2 e : round (- powerRZ 2 e) = - powerRZ 2 e.
Proof.
  assert (P : 0 < powerRZ 2 (e - 23)) by (apply powerRZ_lt; lra).
  unfold round. destruct (Req_dec_T (- powerRZ 2 e) 0) as [H|_].
  - pose proof (powerRZ_lt 2 e). lra.
  - unfold ulp. rewrite exponent_opp, exponent_pow2.
    replace (- powerRZ 2 e / powerRZ 2 (e - 23)) with (IZR (-8388608))
      by (rewrite (powerRZ_split e); field; lra).
    rewrite nearest_even_IZR. rewrite (powerRZ_split e). lra.
Qed.


Lemma round_opp_1 : round (-1) = -1.
Proof. exact (round_opp_pow2 0). Qed.

(** [2^e <= |x|] for the exponent [e] of a non-zero [x]. *)
Lemma exponent_le x : x <> 0 -> powerRZ 2 (exponent x) <= Rabs x.
Proof.
  intros Hx. assert (P : 0 < Rabs x) by now apply Rabs_pos_lt.
  rewrite powerRZ_exp.
  apply Rle_trans with (exp (ln (Rabs x))); [|rewrite exp_ln by assumption; lra].
  destruct (base_Int_part (ln (Rabs x) / ln 2)) as [Hl _].
  fold (exponent x) in Hl. pose proof ln2_pos as L.
  assert (IZR (exponent x) * ln 2 <= ln (Rabs x)).
  { apply (Rmult_le_compat_r (ln 2)) in Hl; [|lra].
    replace (ln (Rabs x) / ln 2 * ln 2) with (ln (Rabs x)) in Hl by (field; lra).
    exact Hl. }
  destruct H as [H|H]; [left; now apply exp_increasing|right; now rewrite H].
Qed.

(** The relative error of one rounding is at most [2^-24]. *)
Lemma round_error x : Rabs (round x - x) <= Rabs x * u.
Proof.
  unfold round. destruct (Req_dec_T x 0) as [->|Hx].
  - rewrite Rminus_diag, Rabs_R0. lra.
  - pose proof (ulp_pos x) as P. pose proof (exponent_le Hx) as E.
    pose proof (nearest_even_error (x / ulp x)) as N.
    replace (IZR (nearest_even (x / ulp x)) * ulp x - x)
      with ((IZR (nearest_even (x / ulp x)) - x / ulp x) * ulp x)
      by (field; lra).
    rewrite Rabs_mult, (Rabs_pos_eq (ulp x)) by lra.
    rewrite (powerRZ_split (exponent x)) in E. fold (ulp x) in E.
    unfold u. apply Rle_trans with (1 / 2 * ulp x).
    + apply Rmult_le_compat_r; lra.
    + lra.
Qed.

Lemma round_bounds x : 0 < x -> x * (1 - u) <= round x <= x * (1 + u).
Proof.
  intros Hx. pose proof (round_error x) as E.
  rewrite (Rabs_pos_eq x) in E by lra.
  unfold Rabs in E. destruct (Rcase_abs (round x - x)); lra.
Qed.

Lemma round_pos x : 0 < x -> 0 < round x.
Proof.
  intros Hx. destruct (round_bounds Hx) as [L _].
  apply Rlt_le_trans with (x * (1 - u)); [|exact L].
  apply Rmult_lt_0_compat; [lra|unfold u; lra].
Qed.


End Float32Facts.

(** ** Softmax and the predicted class *)

Section ArgmaxMonotone.

Variable f : R -> R.

Lemma argmax_from_map (l : list R) :
  forall best bi i,
    (forall a b : R, In a (best :: l) -> In b (best :: l) ->
       (a < b)%R -> (f a < f b)%R) ->
    Torch.argmax_from (f best) bi i (map f l) = Torch.argmax_from best bi i l.
Proof.
  induction l as [|x l IH]; intros best bi i Hf; [reflexivity|].
  cbn [map Torch.argmax_from].
  destruct (Rlt_dec (f best) (f x)) as [H|H];
    destruct (Rlt_dec best x) as [H'|H'].
  - apply IH. intros a b Ha Hb. apply Hf; cbn in *; tauto.
  - exfalso. destruct (Rle_lt_or_eq_dec x best) as [Hlt|Heq]; [lra| |].
    + apply Hf in Hlt; cbn; [lra| |]; tauto.
    + subst. lra.
  - exfalso. apply H. apply Hf; cbn; tauto.
  - apply IH. intros a b Ha Hb. apply Hf; cbn in *; tauto.
Qed.

Lemma argmax_row_map (row : list R) :
  (forall a b : R, In a row -> In b row -> (a < b)%R -> (f a < f b)%R) ->
  Torch.argmax_row (map f row) = Torch.argmax_row row.
Proof.
  destruct row as [|x l]; intros Hf; [reflexivity|].
  cbn [map Torch.argmax_row]. now rewrite argmax_from_map.
Qed.

End ArgmaxMonotone.

Lemma softmax_keeps_argmax (logits : list (list R)) :
  Forall Torch.keeps_order logits ->
  Torch.argmax (Torch.softmax logits) = Torch.argmax logits.
Proof.
  induction 1 as [|row t Hrow _ IH]; [reflexivity|].
  change (Torch.softmax (row :: t))
    with (Torch.softmax_row row :: Torch.softmax t).
  cbn [Torch.argmax]. unfold Torch.softmax_row.
  now rewrite (argmax_row_map (Torch.softmax_entry row) row Hrow), IH.
Qed.

(** *** The rounded softmax *)

Lemma row_max_pair_l (a b : R) : (b <= a)%R -> Torch.row_max [a; b] = a.
Proof.
  intros H. unfold Torch.row_max. cbn [fold_right hd].
  rewrite (Rmax_right b a), Rmax_left by lra. reflexivity.
Qed.

Lemma row_max_pair_r (a b : R) : (a <= b)%R -> Torch.row_max [a; b] = b.
Proof.
  intros H. unfold Torch.row_max. cbn [fold_right hd].
  rewrite (Rmax_left b a), Rmax_right by lra. reflexivity.
Qed.

Lemma shifted_exp_pos row x : (0 < Torch.shifted_exp row x)%R.
Proof. apply Float32Facts.round_pos, exp_pos. Qed.

Lemma rounded_sum_pos (l : list R) :
  Forall (fun e => 0 < e)%R l ->
  forall acc, (0 < acc)%R ->
    (0 < fold_left (fun acc e => Float32.round (acc + e)) l acc)%R.
Proof.
  induction 1 as [|e l He _ IH]; intros acc Hacc; [assumption|].
  cbn [fold_left]. apply IH. apply Float32Facts.round_pos. lra.
Qed.

Lemma denominator_pos row : row <> [] -> (0 < Torch.denominator row)%R.
Proof.
  unfold Torch.denominator. destruct row as [|x l]; [congruence|]. intros _.
  cbn [map fold_left]. apply rounded_sum_pos.
  - apply Forall_forall. intros e He. apply in_map_iff in He.
    destruct He as (y & <- & _). apply shifted_exp_pos.
  - apply Float32Facts.round_pos.
    pose proof (shifted_exp_pos (x :: l) x). lra.
Qed.

Lemma exp_minus_1 : (exp (Ropp 1) < / 2)%R.
Proof.
  rewrite exp_Ropp. apply Rinv_lt_contravar.
  - pose proof (exp_pos 1). lra.
  - pose proof (exp_ineq1 1). lra.
Qed.

(** Two entries whose rounded distances to the row's maximum differ by at
    least one keep their order: the quotient of their exponentials is far
    from the rounding error. *)
Lemma softmax_entry_lt row a b :
  row <> [] ->
  (Float32.round (a - Torch.row_max row) + 1
   <= Float32.round (b - Torch.row_max row))%R ->
  (Torch.softmax_entry row a < Torch.softmax_entry row b)%R.
Proof.
  intros Hrow Hgap. unfold Torch.softmax_entry, Torch.shifted_exp.
  set (da := Float32.round (a - Torch.row_max row)) in *.
  set (db := Float32.round (b - Torch.row_max row)) in *.
  pose proof (denominator_pos Hrow) as Hs.
  set (s := Torch.denominator row) in *.
  assert (Hi : (0 < / s)%R) by now apply Rinv_0_lt_compat.
  pose proof (exp_pos da) as Pa. pose proof (exp_pos db) as Pb.
  assert (Hab : (2 * exp da <= exp db)%R).
  { assert (H : (exp da <= exp (db + Ropp 1))%R).
    { assert (Hle : (da <= db + Ropp 1)%R) by lra.
      destruct Hle as [Hlt|Heq];
        [left; now apply exp_increasing|right; now rewrite Heq]. }
    rewrite exp_plus in H. pose proof exp_minus_1 as E.
    assert (exp db * exp (Ropp 1) <= exp db * / 2)%R
      by (apply Rmult_le_compat_l; lra).
    lra. }
  destruct (Float32Facts.round_bounds Pa) as [_ Ua].
  destruct (Float32Facts.round_bounds Pb) as [Lb _].
  pose proof (Float32Facts.round_pos Pa) as Ea.
  pose proof (Float32Facts.round_pos Pb) as Eb.
  set (ea := Float32.round (exp da)) in *.
  set (eb := Float32.round (exp db)) in *.
  assert (Qa : (0 < ea / s)%R) by (apply Rdiv_lt_0_compat; assumption).
  assert (Qb : (0 < eb / s)%R) by (apply Rdiv_lt_0_compat; assumption).
  destruct (Float32Facts.round_bounds Qa) as [_ Ua'].
  destruct (Float32Facts.round_bounds Qb) as [Lb' _].
  assert (Xa : (ea / s <= exp da * / s * (1 + Float32.u))%R).
  { unfold Rdiv. apply (Rmult_le_compat_r (/ s)) in Ua; lra. }
  assert (Xb : (exp db * / s * (1 - Float32.u) <= eb / s)%R).
  { unfold Rdiv. apply (Rmult_le_compat_r (/ s)) in Lb; lra. }
  assert (Xab : (2 * (exp da * / s) <= exp db * / s)%R).
  { apply (Rmult_le_compat_r (/ s)) in Hab; lra. }
  assert (Xp : (0 < exp da * / s)%R) by now apply Rmult_lt_0_compat.
  unfold Float32.u in *. lra.
Qed.

(** Rows over the logits 0 and 1 keep their order. *)
Lemma keeps_order_10 : Torch.keeps_order [1; 0]%R.
Proof.
  intros a b Ha Hb Hab.
  assert (a = 0 /\ b = 1)%R as [-> ->] by (cbn in Ha, Hb; lra).
  apply softmax_entry_lt; [discriminate|].
  rewrite row_max_pair_l by lra.
  replace (0 - 1)%R with (- powerRZ 2 0)%R by (cbn; lra).
  rewrite Float32Facts.round_opp_pow2, Rminus_diag, Float32Facts.round_0.
  cbn. lra.
Qed.

Lemma keeps_order_01 : Torch.keeps_order [0; 1]%R.
Proof.
  intros a b Ha Hb Hab.
  assert (a = 0 /\ b = 1)%R as [-> ->] by (cbn in Ha, Hb; lra).
  apply softmax_entry_lt; [discriminate|].
  rewrite row_max_pair_r by lra.
  replace (0 - 1)%R with (- powerRZ 2 0)%R by (cbn; lra).
  rewrite Float32Facts.round_opp_pow2, Rminus_diag, Float32Facts.round_0.
  cbn. lra.
Qed.



(** * Facts about the engine *)

Section EngineFacts.

Context {C : Collaborators}.

Lemma bind_ret_l {A B} (a : A) (k : A -> M B) w : bind (ret a) k w = k a w.
Proof. reflexivity. Qed.

Lemma bind_emit {B} e (k : unit -> M B) w :
  bind (emit e) k w = k tt (log e w).
Proof. reflexivity. Qed.

Lemma bind_modify {B} f (k : unit -> M B) w :
  bind (modify f) k w = k tt (f w).
Proof. reflexivity. Qed.

Lemma bind_raise {A B} e (k : A -> M B) w : bind (raise e) k w = (inl e, w).
Proof. reflexivity. Qed.

Lemma bind_lift {A B} (r : exn + A) (k : A -> M B) w :
  bind (lift r) k w = match r with inl e => (inl e, w) | inr a => k a w end.
Proof. destruct r; reflexivity. Qed.

Lemma bind_assoc {A B D} (m : M A) (k : A -> M B) (h : B -> M D) w :
  bind (bind m k) h w = bind m (fun a => bind (k a) h) w.
Proof. unfold bind. destruct (m w) as [[e|a] w1]; reflexivity. Qed.

Lemma bind_ext {A B} (m : M A) (k k' : A -> M B) w :
  (forall a w1, k a w1 = k' a w1) -> bind m k w = bind m k' w.
Proof. intros H. unfold bind. destruct (m w) as [[e|a] w1]; auto. Qed.

Ltac proj :=
  unfold log;
  cbn [w_params w_buffers w_grads w_training w_device w_opt w_opt_steps
       w_sched_steps w_trace w_stdout fst snd].

Ltac exec :=
  repeat first
    [ rewrite bind_assoc | rewrite bind_emit | rewrite bind_modify
    | rewrite bind_ret_l | rewrite bind_raise | rewrite bind_lift ];
  proj.

(** *** One batch *)

Lemma test_batch_run d x y w :
  test_batch d (x, y) w =
  if device_usable d then
    let lg := fst (forward false (w_params w) (w_buffers w) x) in
    (match accuracy_of (Torch.argmax (Torch.softmax lg)) y with
     | inl e => inl e
     | inr a => inr (loss_fn lg y, a)
     end,
     mkWorld (w_params w) (snd (forward false (w_params w) (w_buffers w) x))
       (w_grads w) false (w_device w) (w_opt w) (w_opt_steps w)
       (w_sched_steps w) (w_trace w ++ test_batch_events d) (w_stdout w))
  else (inl RuntimeError, log (EBatchTo d) w).
Proof.
  unfold test_batch, batch_to, test_batch_events. exec.
  destruct (device_usable d); exec; [|reflexivity].
  unfold set_training. exec. unfold model_call. exec.
  unfold bind at 1. proj.
  destruct (forward false (w_params w) (w_buffers w) x) as [lg b']. proj.
  unfold call_loss. exec. unfold accuracy. exec.
  rewrite <- !app_assoc. cbn [app].
  destruct (accuracy_of _ _); reflexivity.
Qed.

Lemma train_batch_run s d x y w :
  train_batch s d (x, y) w =
  if device_usable d then
    let lg := fst (forward true (w_params w) (w_buffers w) x) in
    let b' := snd (forward true (w_params w) (w_buffers w) x) in
    let g := Some (accumulate None (gradient (w_params w) b' x y)) in
    let op := optimizer_update (w_opt w) (w_params w) g in
    (match accuracy_of (Torch.argmax (Torch.softmax lg)) y with
     | inl e => inl e
     | inr a => inr (loss_fn lg y, a)
     end,
     mkWorld (snd op) b' g true (w_device w)
       (match s with
        | Some _ => scheduler_update (S (w_sched_steps w)) (fst op)
        | None => fst op
        end)
       (S (w_opt_steps w))
       (match s with Some _ => S (w_sched_steps w) | None => w_sched_steps w end)
       (w_trace w ++ train_batch_events s d) (w_stdout w))
  else (inl RuntimeError, log (EBatchTo d) w).
Proof.
  unfold train_batch, batch_to. exec.
  destruct (device_usable d); exec; [|reflexivity].
  unfold set_training. exec. unfold model_call. exec.
  unfold bind at 1. proj.
  destruct (forward true (w_params w) (w_buffers w) x) as [lg b']. proj.
  unfold call_loss. exec. unfold zero_grad. exec. unfold backward. exec.
  unfold optimizer_step. exec.
  destruct (optimizer_update _ _ _) as [o' p']. proj.
  unfold train_batch_events.
  destruct s; unfold scheduler_step, accuracy; exec;
    rewrite <- !app_assoc; cbn [app];
    destruct (accuracy_of _ _); reflexivity.
Qed.

(** *** A whole pass *)

Lemma for_each_collect {A} (body : A -> M (R * R)) (l : list A) :
  forall totals w,
    for_each l (fun t b => bind (body b) (fun m => ret (add_metrics t m)))
      totals w
    = bind (collect body l)
        (fun vals => ret (fold_left add_metrics vals totals)) w.
Proof.
  induction l as [|b l IH]; intros totals w; [reflexivity|].
  cbn [for_each collect]. rewrite !bind_assoc.
  apply bind_ext. intros m w1. rewrite bind_ret_l, IH, bind_assoc.
  apply bind_ext. intros vals w2. now rewrite !bind_ret_l.
Qed.

Lemma bind_for_each_collect {A B} (body : A -> M (R * R)) (l : list A)
    (k : pyval * pyval -> M B) totals w :
  bind (for_each l
          (fun t b => bind (body b) (fun m => ret (add_metrics t m))) totals)
       k w
  = bind (collect body l)
      (fun vals => k (fold_left add_metrics vals totals)) w.
Proof.
  unfold bind at 1. rewrite for_each_collect. unfold bind.
  destruct (collect body l w) as [[e|vals] w1]; reflexivity.
Qed.

Lemma train_step_values s d l w :
  train_step s d l w =
  bind (train_values s d l)
    (fun vals =>
       average (fold_left add_metrics vals (PyInt 0, PyInt 0)) (length l)) w.
Proof.
  unfold train_step, train_values. rewrite !bind_assoc.
  apply bind_ext. intros _ w1. rewrite !bind_assoc.
  apply bind_ext. intros _ w2. apply bind_for_each_collect.
Qed.

Lemma test_step_values d l w :
  test_step d l w =
  bind (test_values d l)
    (fun vals =>
       average (fold_left add_metrics vals (PyInt 0, PyInt 0)) (length l)) w.
Proof.
  unfold test_step, test_values. rewrite !bind_assoc.
  apply bind_ext. intros _ w1. rewrite !bind_assoc.
  apply bind_ext. intros _ w2. apply bind_for_each_collect.
Qed.

Lemma enter_pass_run {A} d (k : M A) w :
  bind (model_to d) (fun _ => bind (emit EIterate) (fun _ => k)) w =
  if device_usable d then k (enter_pass d w)
  else (inl RuntimeError, log (EModelTo d) w).
Proof.
  unfold model_to, enter_pass. exec.
  destruct (device_usable d); exec; [|reflexivity].
  now rewrite <- app_assoc.
Qed.

Lemma train_values_run s d l w :
  train_values s d l w =
  if device_usable d then collect (train_batch s d) l (enter_pass d w)
  else (inl RuntimeError, log (EModelTo d) w).
Proof. apply enter_pass_run. Qed.

Lemma test_values_run d l w :
  test_values d l w =
  if device_usable d then collect (test_batch d) l (enter_pass d w)
  else (inl RuntimeError, log (EModelTo d) w).
Proof. apply enter_pass_run. Qed.

(** The totals after the first batch are a tensor and a float, and stay
    so. *)
Lemma fold_add_metrics vals :
  forall t u,
    fold_left add_metrics vals (Tensor t, PyFloat u) =
    (Tensor (fold_left Rplus (map fst vals) t),
     PyFloat (fold_left Rplus (map snd vals) u)).
Proof.
  induction vals as [|v vals IH]; intros t u; [reflexivity|].
  cbn [fold_left map]. rewrite <- IH. reflexivity.
Qed.

Lemma totals_of_values v vals :
  fold_left add_metrics (v :: vals) (PyInt 0, PyInt 0) =
  (Tensor (total (map fst (v :: vals))), PyFloat (total (map snd (v :: vals)))).
Proof.
  unfold total. cbn [fold_left map]. rewrite <- fold_add_metrics.
  reflexivity.
Qed.

Lemma collect_length {A B} (body : A -> M B) l :
  forall w vals w',
    collect body l w = (inr vals, w') -> length vals = length l.
Proof.
  induction l as [|a l IH]; intros w vals w' H.
  - inversion H. reflexivity.
  - cbn [collect] in H. unfold bind at 1 in H.
    destruct (body a w) as [[e|v] w1]; [discriminate|].
    unfold bind at 1 in H.
    destruct (collect body l w1) as [[e|vs] w2] eqn:E; [discriminate|].
    inversion H; subst. cbn. f_equal. eauto.
Qed.

Lemma collect_Forall {A B} (body : A -> M B) (P : B -> Prop) l :
  (forall a w v w', In a l -> body a w = (inr v, w') -> P v) ->
  forall w vals w', collect body l w = (inr vals, w') -> Forall P vals.
Proof.
  induction l as [|a l IH]; intros Hb w vals w' H.
  - inversion H. constructor.
  - cbn [collect] in H. unfold bind at 1 in H.
    destruct (body a w) as [[e|v] w1] eqn:Ea; [discriminate|].
    unfold bind at 1 in H.
    destruct (collect body l w1) as [[e|vs] w2] eqn:E; [discriminate|].
    inversion H; subst. constructor.
    + eapply Hb; [left; reflexivity | exact Ea].
    + eapply IH; [|exact E]. intros; eapply Hb; [right|]; eassumption.
Qed.

(** The averaging at the end of a pass. *)
Lemma average_run t u n w :
  average (Tensor t, PyFloat u) (S n) w =
  (inr (Tensor (t / INR (S n)), PyFloat (u / INR (S n))), w).
Proof. reflexivity. Qed.

Lemma average_empty w :
  average (PyInt 0, PyInt 0) 0 w = (inl ZeroDivisionError, w).
Proof. reflexivity. Qed.

(** *** The accuracy of one batch *)

Lemma argmax_length t : forall p, Torch.argmax t = inr p -> length p = length t.
Proof.
  induction t as [|row t IH]; intros p H; cbn [Torch.argmax] in H.
  - inversion H. reflexivity.
  - destruct (Torch.argmax_row row); [discriminate|].
    destruct (Torch.argmax t); [discriminate|].
    inversion H. cbn. f_equal. now apply IH.
Qed.

Lemma softmax_length t : length (Torch.softmax t) = length t.
Proof. apply length_map. Qed.

Lemma sum_item_le l : Torch.sum_item l <= length l.
Proof. apply filter_length_le. Qed.

Lemma zip_eq_length a : forall b, length (Torch.zip_eq a b) <= length a.
Proof.
  induction a as [|x a IH]; intros [|y b]; cbn; try lia.
  specialize (IH b). lia.
Qed.

Lemma accuracy_of_nonneg p y a : accuracy_of p y = inr a -> (0 <= a)%R.
Proof.
  unfold accuracy_of. destruct p as [e|p]; [discriminate|].
  destruct (Torch.eq y p) as [e|eqs]; [discriminate|].
  destruct (Nat.eqb_spec (length y) 0) as [|Hy]; [discriminate|].
  intros H. inversion H. apply Rmult_le_pos; [apply pos_INR|].
  apply Rlt_le, Rinv_0_lt_compat, lt_0_INR. lia.
Qed.

Lemma accuracy_of_le_1 p y a :
  length p = length y -> accuracy_of (inr p) y = inr a -> (a <= 1)%R.
Proof.
  intros Hlen. unfold accuracy_of, Torch.eq.
  rewrite <- Hlen, Nat.eqb_refl.
  destruct (Nat.eqb_spec (length p) 0) as [|Hy]; [discriminate|].
  intros H. inversion H.
  assert (Hpos : (0 < INR (length p))%R) by (apply lt_0_INR; lia).
  apply Rmult_le_reg_r with (r := INR (length p)); [assumption|].
  unfold Rdiv. rewrite Rmult_assoc, Rinv_l, Rmult_1_r, Rmult_1_l by lra.
  apply le_INR. etransitivity; [apply sum_item_le|].
  rewrite Hlen. apply zip_eq_length.
Qed.

(** With no label there is nothing to divide by. *)
Lemma accuracy_of_no_labels p : exists e, accuracy_of p [] = inl e.
Proof.
  unfold accuracy_of. destruct p as [e|p]; [eauto|].
  destruct (Torch.eq [] p) as [e|eqs]; cbn; eauto.
Qed.

Lemma accuracy_of_no_samples : accuracy_of (inr []) [] = inl ZeroDivisionError.
Proof. reflexivity. Qed.

Lemma argmax_row_nonempty row : row <> [] -> exists i, Torch.argmax_row row = inr i.
Proof. destruct row; [congruence|]. cbn. eauto. Qed.

Lemma argmax_rows_nonempty t :
  Forall (fun row => row <> []) t -> exists p, Torch.argmax t = inr p.
Proof.
  induction 1 as [|row t Hrow _ [p IH]]; cbn [Torch.argmax]; [eauto|].
  destruct (argmax_row_nonempty Hrow) as [i ->]. rewrite IH. eauto.
Qed.

Lemma accuracy_of_well_shaped lg y :
  y <> [] -> length lg = length y -> Forall (fun row => row <> []) lg ->
  exists a, accuracy_of (Torch.argmax (Torch.softmax lg)) y = inr a.
Proof.
  intros Hy Hlen Hrows.
  assert (Hrows' : Forall (fun row => row <> []) (Torch.softmax lg)).
  { apply Forall_map. eapply Forall_impl; [|exact Hrows].
    intros [|x row] H; [congruence|discriminate]. }
  destruct (argmax_rows_nonempty Hrows') as [p Hp]. rewrite Hp.
  apply argmax_length in Hp. rewrite softmax_length in Hp.
  unfold accuracy_of, Torch.eq.
  replace (length p) with (length y) by congruence.
  rewrite Nat.eqb_refl.
  destruct (Nat.eqb_spec (length y) 0) as [H0|_]; [|eauto].
  destruct y; [congruence|discriminate].
Qed.

(** *** Sums of values in a range *)

Lemma fold_plus_ge l : forall acc,
  Forall (fun v => 0 <= v)%R l -> (acc <= fold_left Rplus l acc)%R.
Proof.
  induction l as [|v l IH]; intros acc H; cbn [fold_left]; [lra|].
  inversion H; subst. specialize (IH (acc + v)%R H3). lra.
Qed.

Lemma fold_plus_le l : forall acc,
  Forall (fun v => v <= 1)%R l ->
  (fold_left Rplus l acc <= acc + INR (length l))%R.
Proof.
  induction l as [|v l IH]; intros acc H; cbn [fold_left length].
  - cbn. lra.
  - inversion H; subst. specialize (IH (acc + v)%R H3).
    rewrite S_INR. lra.
Qed.

Lemma mean_nonneg l n :
  Forall (fun v => 0 <= v)%R l -> (0 <= total l / INR (S n))%R.
Proof.
  intros H. apply fold_plus_ge with (acc := 0%R) in H. fold (total l) in H.
  assert (0 < INR (S n))%R by (apply lt_0_INR; lia).
  apply Rmult_le_pos; [assumption|]. now apply Rlt_le, Rinv_0_lt_compat.
Qed.

Lemma mean_le_1 l n :
  length l = S n -> Forall (fun v => v <= 1)%R l -> (total l / INR (S n) <= 1)%R.
Proof.
  intros Hlen H. apply fold_plus_le with (acc := 0%R) in H.
  fold (total l) in H. rewrite Hlen in H.
  assert (Hpos : (0 < INR (S n))%R) by (apply lt_0_INR; lia).
  apply Rmult_le_reg_r with (r := INR (S n)); [assumption|].
  unfold Rdiv. rewrite Rmult_assoc, Rinv_l, Rmult_1_r, Rmult_1_l by lra.
  lra.
Qed.

(** *** What one batch leaves behind *)

Lemma train_batch_success s d x y w v w' :
  train_batch s d (x, y) w = (inr v, w') ->
  let lg := fst (forward true (w_params w) (w_buffers w) x) in
  let b' := snd (forward true (w_params w) (w_buffers w) x) in
  let g := Some (accumulate None (gradient (w_params w) b' x y)) in
  fst v = loss_fn lg y /\
  accuracy_of (Torch.argmax (Torch.softmax lg)) y = inr (snd v) /\
  w_grads w' = g /\
  w_params w' = snd (optimizer_update (w_opt w) (w_params w) g) /\
  w_trace w' = w_trace w ++ train_batch_events s d /\
  w_opt_steps w' = S (w_opt_steps w) /\
  w_sched_steps w' =
    match s with Some _ => S (w_sched_steps w) | None => w_sched_steps w end.
Proof.
  rewrite train_batch_run. destruct (device_usable d); [|discriminate].
  cbv zeta. destruct (accuracy_of _ _) as [e|a]; [discriminate|].
  intros H. inversion H; subst. cbn. repeat split; reflexivity.
Qed.

Lemma test_batch_success d x y w v w' :
  test_batch d (x, y) w = (inr v, w') ->
  let lg := fst (forward false (w_params w) (w_buffers w) x) in
  fst v = loss_fn lg y /\
  accuracy_of (Torch.argmax (Torch.softmax lg)) y = inr (snd v) /\
  w_trace w' = w_trace w ++ test_batch_events d.
Proof.
  rewrite test_batch_run. destruct (device_usable d); [|discriminate].
  cbv zeta. destruct (accuracy_of _ _) as [e|a]; [discriminate|].
  intros H. inversion H; subst. cbn. repeat split; reflexivity.
Qed.

Lemma collect_train_batch s d l :
  forall w vals w',
    collect (train_batch s d) l w = (inr vals, w') ->
    w_trace w' = w_trace w ++ flat_map (fun _ => train_batch_events s d) l /\
    w_opt_steps w' = w_opt_steps w + length l /\
    w_sched_steps w' =
      w_sched_steps w + match s with Some _ => length l | None => 0 end.
Proof.
  induction l as [|[x y] l IH]; intros w vals w' H.
  - inversion H; subst. rewrite app_nil_r. cbn.
    repeat split; try lia. destruct s; lia.
  - cbn [collect] in H. unfold bind at 1 in H.
    destruct (train_batch s d (x, y) w) as [[e|v] w1] eqn:Eb; [discriminate|].
    unfold bind at 1 in H.
    destruct (collect (train_batch s d) l w1) as [[e|vs] w2] eqn:El;
      [discriminate|].
    inversion H; subst.
    apply train_batch_success in Eb.
    destruct Eb as (_ & _ & _ & _ & Ht & Ho & Hs).
    destruct (IH _ _ _ El) as (Ht' & Ho' & Hs').
    rewrite Ht', Ho', Hs', Ht, Ho, Hs.
    cbn [flat_map length]. rewrite <- app_assoc.
    repeat split; [lia|destruct s; lia].
Qed.

(** A batch that [train_batch] completes has gone through the steps of
    [batch_metrics] and [after_batch]. *)
Lemma train_batch_steps s d b w v w' :
  train_batch s d b w = (inr v, w') ->
  batch_metrics b w = (fst v, inr (snd v)) /\ w' = after_batch s d b w.
Proof.
  destruct b as [x y]. rewrite train_batch_run.
  destruct (device_usable d); [|discriminate].
  cbv zeta. unfold batch_metrics, after_batch. cbn [fst snd].
  destruct (accuracy_of _ _) as [e|a]; [discriminate|].
  intros H. inversion H; subst. split; reflexivity.
Qed.

Lemma collect_train_batch_steps s d l :
  forall w vals w',
    collect (train_batch s d) l w = (inr vals, w') ->
    map (fun v => (fst v, inr (snd v))) vals = pass_metrics s d l w /\
    w' = after_pass s d l w.
Proof.
  induction l as [|b l IH]; intros w vals w' H.
  - inversion H; subst. split; reflexivity.
  - cbn [collect] in H. unfold bind at 1 in H.
    destruct (train_batch s d b w) as [[e|v] w1] eqn:Eb; [discriminate|].
    unfold bind at 1 in H.
    destruct (collect (train_batch s d) l w1) as [[e|vs] w2] eqn:El;
      [discriminate|].
    inversion H; subst.
    apply train_batch_steps in Eb. destruct Eb as (Hm & ->).
    destruct (IH _ _ _ El) as (Hvs & Hw).
    unfold after_pass. cbn [map pass_metrics fold_left].
    rewrite Hm, Hvs. split; [reflexivity|exact Hw].
Qed.

Lemma collect_error {A B} (body : A -> M B) (a : A) l :
  In a l -> (forall w, exists e, fst (body a w) = inl e) ->
  forall w, exists e, fst (collect body l w) = inl e.
Proof.
  intros Hin Hbad. induction l as [|b l IH]; [contradiction|]. intros w.
  cbn [collect]. unfold bind at 1.
  destruct (body b w) as [[e|v] w1] eqn:Eb; [cbn; eauto|].
  destruct Hin as [->|Hin].
  - destruct (Hbad w) as [e He]. rewrite Eb in He. discriminate.
  - destruct (IH Hin w1) as [e He]. unfold bind at 1.
    destruct (collect body l w1) as [[e'|vs] w2]; cbn in *; eauto.
    discriminate.
Qed.

Lemma bind_error {A B} (m : M A) (k : A -> M B) w :
  (exists e, fst (m w) = inl e) -> exists e, fst (bind m k w) = inl e.
Proof.
  intros [e He]. unfold bind. destruct (m w) as [[e'|a] w1]; cbn in *; eauto.
  discriminate.
Qed.

Lemma train_batch_no_labels s d x w :
  exists e, fst (train_batch s d (x, []) w) = inl e.
Proof.
  rewrite train_batch_run. destruct (device_usable d); [|cbn; eauto].
  cbv zeta. destruct (accuracy_of_no_labels
    (Torch.argmax (Torch.softmax (fst (forward true (w_params w) (w_buffers w) x)))))
    as [e ->]. cbn. eauto.
Qed.

Lemma test_batch_no_labels d x w :
  exists e, fst (test_batch d (x, []) w) = inl e.
Proof.
  rewrite test_batch_run. destruct (device_usable d); [|cbn; eauto].
  cbv zeta. destruct (accuracy_of_no_labels
    (Torch.argmax (Torch.softmax (fst (forward false (w_params w) (w_buffers w) x)))))
    as [e ->]. cbn. eauto.
Qed.

Lemma values_error {A} (body : batch -> M A) d l w :
  (exists e, device_usable d = true ->
     fst (collect body l (enter_pass d w)) = inl e) ->
  exists e,
    fst (bind (model_to d) (fun _ => bind (emit EIterate)
                                       (fun _ => collect body l)) w) = inl e.
Proof.
  intros [e He]. rewrite enter_pass_run.
  destruct (device_usable d); [eauto|cbn; eauto].
Qed.

(** ** The claims about one pass *)

(** C4: on a loader with at least one batch, [train_step] and [test_step]
    return the sum of the per-batch losses divided by the number of batches
    and the sum of the per-batch accuracies divided by the number of
    batches, whatever the sizes of the batches; there are as many per-batch
    values as batches. *)
Theorem step_returns_batch_means s d l w :
  l <> [] ->
  train_step s d l w =
    match train_values s d l w with
    | (inl e, w') => (inl e, w')
    | (inr vals, w') =>
        (inr (Tensor (total (map fst vals) / INR (length l)),
              PyFloat (total (map snd vals) / INR (length l))), w')
    end /\
  test_step d l w =
    match test_values d l w with
    | (inl e, w') => (inl e, w')
    | (inr vals, w') =>
        (inr (Tensor (total (map fst vals) / INR (length l)),
              PyFloat (total (map snd vals) / INR (length l))), w')
    end /\
  (forall vals w', train_values s d l w = (inr vals, w') ->
                   length vals = length l) /\
  (forall vals w', test_values d l w = (inr vals, w') ->
                   length vals = length l).
Proof.
  intros Hl.
  assert (Hlen1 : forall vals w', train_values s d l w = (inr vals, w') ->
                                  length vals = length l).
  { intros vals w'. rewrite train_values_run.
    destruct (device_usable d); [apply collect_length|discriminate]. }
  assert (Hlen2 : forall vals w', test_values d l w = (inr vals, w') ->
                                  length vals = length l).
  { intros vals w'. rewrite test_values_run.
    destruct (device_usable d); [apply collect_length|discriminate]. }
  repeat split; try assumption.
  - rewrite train_step_values. unfold bind.
    destruct (train_values s d l w) as [[e|vals] w'] eqn:E; [reflexivity|].
    specialize (Hlen1 _ _ eq_refl).
    destruct l as [|b l]; [congruence|].
    destruct vals as [|v vals]; [discriminate|].
    rewrite totals_of_values. apply average_run.
  - rewrite test_step_values. unfold bind.
    destruct (test_values d l w) as [[e|vals] w'] eqn:E; [reflexivity|].
    specialize (Hlen2 _ _ eq_refl).
    destruct l as [|b l]; [congruence|].
    destruct vals as [|v vals]; [discriminate|].
    rewrite totals_of_values. apply average_run.
Qed.

(** C2 (as the code has it): on a loader without batches, [train_step] and
    [test_step] return no pair at all; with a usable device the exception is
    the [ZeroDivisionError] of the averaging division itself, raised after
    the model was moved and the (empty) loop was run. *)
Theorem empty_loader_raises s d w :
  (exists e, fst (train_step s d [] w) = inl e) /\
  (exists e, fst (test_step d [] w) = inl e) /\
  (device_usable d = true ->
   train_step s d [] w = (inl ZeroDivisionError, enter_pass d w) /\
   test_step d [] w = (inl ZeroDivisionError, enter_pass d w)).
Proof.
  rewrite train_step_values, test_step_values. unfold bind.
  rewrite train_values_run, test_values_run.
  destruct (device_usable d); cbn; repeat split; eauto; discriminate.
Qed.

(** C10: a batch without labels makes its accuracy computation raise, so a
    loader that contains one makes [train_step] and [test_step] raise; and
    when the model answers such a batch with no rows, on a usable device,
    the batch raises the [ZeroDivisionError] of [... / len(y)]. *)
Theorem empty_batch_raises s d l x w :
  In (x, []) l ->
  (exists e, fst (train_step s d l w) = inl e) /\
  (exists e, fst (test_step d l w) = inl e) /\
  (device_usable d = true -> aligned (x, []) ->
   fst (train_batch s d (x, []) w) = inl ZeroDivisionError /\
   fst (test_batch d (x, []) w) = inl ZeroDivisionError).
Proof.
  intros Hin. split; [|split].
  - rewrite train_step_values. apply bind_error. apply values_error.
    destruct (collect_error (train_batch s d) _ _ Hin
                (train_batch_no_labels s d x) (enter_pass d w)) as [e He].
    eauto.
  - rewrite test_step_values. apply bind_error. apply values_error.
    destruct (collect_error (test_batch d) _ _ Hin
                (test_batch_no_labels d x) (enter_pass d w)) as [e He].
    eauto.
  - intros Hd Hal. rewrite train_batch_run, test_batch_run, Hd. cbv zeta.
    pose proof (Hal true (w_params w) (w_buffers w)) as H1.
    pose proof (Hal false (w_params w) (w_buffers w)) as H2.
    cbn [fst snd length] in H1, H2.
    apply length_zero_iff_nil in H1, H2. rewrite H1, H2. cbn. auto.
Qed.

(** C5: a completed [train_step] has processed every batch of the loader,
    in the loader's order, by the steps of [batch_metrics] and [after_batch]:
    the world it ends in is the one these steps produce from the world in
    which the model was moved and the loader opened, and the pair it returns
    is the average of the accumulated per-batch values, where the loss of a
    batch is [loss_fn] of the logits of its forward pass, computed before the
    parameters are updated, and its accuracy is the number of labels equal to
    [argmax(softmax(logits))] over [len(y)].  The calls are, for each batch in
    turn, forward pass, loss, [zero_grad], [backward], one optimizer step,
    the scheduler step when a scheduler was given, then the accuracy; the
    optimizer has been stepped once per batch. *)
Theorem train_step_order s d l w r w' :
  train_step s d l w = (inr r, w') ->
  w' = after_pass s d l (enter_pass d w) /\
  (exists vals : list (R * R),
     map (fun v => (fst v, inr (snd v))) vals
     = pass_metrics s d l (enter_pass d w) /\
     average (fold_left add_metrics vals (PyInt 0, PyInt 0)) (length l) w'
     = (inr r, w')) /\
  w_trace w' =
    w_trace w ++ [EModelTo d; EIterate]
            ++ flat_map (fun _ => train_batch_events s d) l /\
  w_opt_steps w' = w_opt_steps w + length l /\
  w_sched_steps w' =
    w_sched_steps w + match s with Some _ => length l | None => 0 end.
Proof.
  intros H. rewrite train_step_values in H. unfold bind in H.
  destruct (train_values s d l w) as [[e|vals] w1] eqn:E; [discriminate|].
  rewrite train_values_run in E.
  destruct (device_usable d); [|discriminate].
  assert (w' = w1) as ->.
  { unfold average, lift, bind, ret in H.
    destruct (py_truediv _ _); [inversion H; reflexivity|].
    destruct (py_truediv _ _); inversion H; reflexivity. }
  destruct (collect_train_batch_steps _ _ _ _ E) as (Hv & Hw).
  apply collect_train_batch in E. cbn [enter_pass w_trace w_opt_steps
    w_sched_steps] in E. destruct E as (Ht & Ho & Hs).
  split; [exact Hw|]. split; [exists vals; split; assumption|].
  rewrite Ht, Ho, Hs, <- app_assoc.
  split; [reflexivity|]. split; reflexivity.
Qed.

(** *** What a completed pass returns *)

Lemma average_world t n w : snd (average t n w) = w.
Proof.
  unfold average, lift, bind, ret.
  destruct (py_truediv (fst t) n); [reflexivity|].
  destruct (py_truediv (snd t) n); reflexivity.
Qed.

Lemma average_pure t n w1 w2 : fst (average t n w1) = fst (average t n w2).
Proof.
  unfold average, lift, bind, ret.
  destruct (py_truediv (fst t) n); [reflexivity|].
  destruct (py_truediv (snd t) n); reflexivity.
Qed.

Lemma pass_success {A} (m : M (list A)) (k : list A -> pyval * pyval)
    (n : nat) w r w' :
  bind m (fun vals => average (k vals) n) w = (inr r, w') ->
  exists vals, m w = (inr vals, w') /\ fst (average (k vals) n w') = inr r.
Proof.
  unfold bind. destruct (m w) as [[e|vals] w1] eqn:E; [discriminate|].
  intros H. pose proof (average_world (k vals) n w1) as Hw.
  rewrite H in Hw. cbn in Hw. subst w1. exists vals. now rewrite H.
Qed.

Lemma means_of_values {A} vals (l : list A) r w :
  length vals = length l ->
  fst (average (fold_left add_metrics vals (PyInt 0, PyInt 0)) (length l) w)
    = inr r ->
  l <> [] /\
  r = (Tensor (total (map fst vals) / INR (length l)),
       PyFloat (total (map snd vals) / INR (length l))).
Proof.
  intros Hlen H. destruct l as [|b l].
  - destruct vals; [|discriminate]. discriminate.
  - destruct vals as [|v vals]; [discriminate|].
    rewrite totals_of_values in H. cbn [length] in H.
    rewrite average_run in H. inversion H. split; [discriminate|reflexivity].
Qed.

Lemma train_step_success s d l w r w' :
  train_step s d l w = (inr r, w') ->
  exists vals,
    device_usable d = true /\
    collect (train_batch s d) l (enter_pass d w) = (inr vals, w') /\
    length vals = length l /\ l <> [] /\
    r = (Tensor (total (map fst vals) / INR (length l)),
         PyFloat (total (map snd vals) / INR (length l))).
Proof.
  rewrite train_step_values. intros H.
  apply pass_success in H. destruct H as (vals & Hv & Ha).
  rewrite train_values_run in Hv.
  destruct (device_usable d); [|discriminate].
  pose proof (collect_length _ _ _ Hv) as Hlen.
  destruct (means_of_values _ _ _ Hlen Ha). eauto 10.
Qed.

Lemma test_step_success d l w r w' :
  test_step d l w = (inr r, w') ->
  exists vals,
    device_usable d = true /\
    collect (test_batch d) l (enter_pass d w) = (inr vals, w') /\
    length vals = length l /\ l <> [] /\
    r = (Tensor (total (map fst vals) / INR (length l)),
         PyFloat (total (map snd vals) / INR (length l))).
Proof.
  rewrite test_step_values. intros H.
  apply pass_success in H. destruct H as (vals & Hv & Ha).
  rewrite test_values_run in Hv.
  destruct (device_usable d); [|discriminate].
  pose proof (collect_length _ _ _ Hv) as Hlen.
  destruct (means_of_values _ _ _ Hlen Ha). eauto 10.
Qed.

Lemma means_in_range {A} (vals : list (R * R)) (l : list A) (lo hi : Prop) :
  length vals = length l -> l <> [] ->
  Forall (fun v => (0 <= snd v)%R /\ (hi -> (snd v <= 1)%R) /\
                   (lo -> (0 <= fst v)%R)) vals ->
  (0 <= total (map snd vals) / INR (length l))%R /\
  (hi -> (total (map snd vals) / INR (length l) <= 1)%R) /\
  (lo -> (0 <= total (map fst vals) / INR (length l))%R).
Proof.
  intros Hlen Hl HF. destruct l as [|b l]; [congruence|]. cbn [length] in *.
  split; [|split].
  - apply mean_nonneg. apply Forall_map.
    eapply Forall_impl; [|exact HF]. cbn. tauto.
  - intros Hhi. apply mean_le_1; [now rewrite length_map|].
    apply Forall_map. eapply Forall_impl; [|exact HF]. cbn. tauto.
  - intros Hlo. apply mean_nonneg. apply Forall_map.
    eapply Forall_impl; [|exact HF]. cbn. tauto.
Qed.

Lemma batch_value_in_range (l : DataLoader) x y lg v :
  In (x, y) l ->
  fst v = loss_fn lg y ->
  accuracy_of (Torch.argmax (Torch.softmax lg)) y = inr (snd v) ->
  (Forall aligned l -> length lg = length y) ->
  (0 <= snd v)%R /\
  (Forall aligned l -> (snd v <= 1)%R) /\
  ((forall x' y' lg', In (x', y') l -> (0 <= loss_fn lg' y')%R) ->
   (0 <= fst v)%R).
Proof.
  intros Hin Hl Ha Hlen. split; [|split].
  - eapply accuracy_of_nonneg; eassumption.
  - intros Hal. specialize (Hlen Hal).
    destruct (Torch.argmax (Torch.softmax lg)) as [e|p] eqn:Ep; [discriminate|].
    apply argmax_length in Ep. rewrite softmax_length in Ep.
    eapply accuracy_of_le_1; [|eassumption]. congruence.
  - intros Hpos. rewrite Hl. eapply Hpos; eassumption.
Qed.

Lemma aligned_in l x y mode p bu :
  In (x, y) l -> Forall aligned l ->
  length (fst (forward mode p bu x)) = length y.
Proof.
  intros Hin Hal. rewrite Forall_forall in Hal.
  exact (Hal _ Hin mode p bu).
Qed.

(** C8: the accuracy a completed [train_step] or [test_step] returns is at
    least 0; it is at most 1 when the model answers every batch with one row
    of scores per label; and the loss returned is at least 0 when the loss
    function is non-negative on the labels of every batch. *)
Theorem step_metrics_in_range s d l w r w' :
  train_step s d l w = (inr r, w') \/ test_step d l w = (inr r, w') ->
  (0 <= val_of (snd r))%R /\
  (Forall aligned l -> (val_of (snd r) <= 1)%R) /\
  ((forall x y lg, In (x, y) l -> (0 <= loss_fn lg y)%R) ->
   (0 <= val_of (fst r))%R).
Proof.
  intros [H|H].
  - apply train_step_success in H.
    destruct H as (vals & _ & Hc & Hlen & Hl & ->). cbn [fst snd val_of].
    apply means_in_range; try assumption.
    eapply collect_Forall; [|exact Hc].
    intros [x y] w1 v w2 Hin Hb. apply train_batch_success in Hb.
    destruct Hb as (Hv & Ha & _).
    eapply batch_value_in_range; eauto.
    intros Hal. eapply aligned_in; eassumption.
  - apply test_step_success in H.
    destruct H as (vals & _ & Hc & Hlen & Hl & ->). cbn [fst snd val_of].
    apply means_in_range; try assumption.
    eapply collect_Forall; [|exact Hc].
    intros [x y] w1 v w2 Hin Hb. apply test_batch_success in Hb.
    destruct Hb as (Hv & Ha & _).
    eapply batch_value_in_range; eauto.
    intros Hal. eapply aligned_in; eassumption.
Qed.

(** *** What a pass may change *)

Lemma bind_preserves {X A B} (f : world -> X) (m : M A) (k : A -> M B) :
  (forall w, f (snd (m w)) = f w) ->
  (forall a w, f (snd (k a w)) = f w) ->
  forall w, f (snd (bind m k w)) = f w.
Proof.
  intros Hm Hk w. unfold bind. specialize (Hm w).
  destruct (m w) as [[e|a] w1]; cbn in *; [assumption|].
  now rewrite Hk.
Qed.

Lemma collect_preserves {X A B} (f : world -> X) (body : A -> M B) l :
  (forall a w, f (snd (body a w)) = f w) ->
  forall w, f (snd (collect body l w)) = f w.
Proof.
  intros Hb. induction l as [|a l IH]; intros w; [reflexivity|].
  cbn [collect]. apply bind_preserves; [apply Hb|]. intros v w1.
  apply bind_preserves; [apply IH|]. reflexivity.
Qed.

Lemma for_each_preserves {X A S} (f : world -> X) (body : S -> A -> M S) l :
  (forall acc a w, f (snd (body acc a w)) = f w) ->
  forall acc w, f (snd (for_each l body acc w)) = f w.
Proof.
  intros Hb. induction l as [|a l IH]; intros acc w; [reflexivity|].
  cbn [for_each]. apply bind_preserves; [apply Hb|]. intros; apply IH.
Qed.

Lemma pass_world {A} (body : batch -> M A) k d l w :
  snd (bind (bind (model_to d)
               (fun _ => bind (emit EIterate) (fun _ => collect body l)))
            (fun vals => average (k vals) (length l)) w) =
  if device_usable d then snd (collect body l (enter_pass d w))
  else log (EModelTo d) w.
Proof.
  unfold bind at 1. rewrite enter_pass_run.
  destruct (device_usable d); [|reflexivity].
  destruct (collect body l (enter_pass d w)) as [[e|vals] w1];
    [reflexivity|apply average_world].
Qed.

Lemma test_step_world d l w :
  snd (test_step d l w) =
  if device_usable d then snd (collect (test_batch d) l (enter_pass d w))
  else log (EModelTo d) w.
Proof. rewrite test_step_values. apply pass_world. Qed.

Lemma train_step_world s d l w :
  snd (train_step s d l w) =
  if device_usable d then snd (collect (train_batch s d) l (enter_pass d w))
  else log (EModelTo d) w.
Proof. rewrite train_step_values. apply pass_world. Qed.

Lemma test_batch_frame {X} (f : world -> X) d b w :
  untouched_by_eval f -> f (snd (test_batch d b w)) = f w.
Proof.
  intros Hf. destruct b as [x y]. rewrite test_batch_run.
  destruct (device_usable d); cbn [snd]; apply Hf.
Qed.

Lemma test_step_frame {X} (f : world -> X) d l w :
  untouched_by_eval f -> f (snd (test_step d l w)) = f w.
Proof.
  intros Hf. rewrite test_step_world.
  destruct (device_usable d); [|apply Hf].
  rewrite collect_preserves; [apply Hf|].
  intros; now apply test_batch_frame.
Qed.

Lemma train_batch_frame {X} (f : world -> X) d b w :
  untouched_by_training f -> f (snd (train_batch None d b w)) = f w.
Proof.
  intros Hf. destruct b as [x y]. rewrite train_batch_run.
  destruct (device_usable d); cbn [snd]; apply Hf.
Qed.

Lemma train_step_frame {X} (f : world -> X) d l w :
  untouched_by_training f -> f (snd (train_step None d l w)) = f w.
Proof.
  intros Hf. rewrite train_step_world.
  destruct (device_usable d); [|apply Hf].
  rewrite collect_preserves; [apply Hf|].
  intros; now apply train_batch_frame.
Qed.

Lemma eval_is_training_frame {X} (f : world -> X) :
  untouched_by_training f -> untouched_by_eval f.
Proof. intros Hf w b t d tr. apply Hf. Qed.

Lemma sched_steps_untouched : untouched_by_training w_sched_steps.
Proof. intros w p b g t d o n tr. reflexivity. Qed.

Lemma stdout_untouched : untouched_by_training w_stdout.
Proof. intros w p b g t d o n tr. reflexivity. Qed.

(** *** Evaluating twice *)

Section FrozenBuffers.

(** In evaluation mode the model leaves its buffers alone. *)
Hypothesis eval_freezes_buffers :
  forall p b x, snd (forward false p b x) = b.

Lemma buffers_untouched_by_test_batch d b w :
  w_buffers (snd (test_batch d b w)) = w_buffers w.
Proof.
  destruct b as [x y]. rewrite test_batch_run.
  destruct (device_usable d); cbn; auto.
Qed.

Lemma collect_test_same d l :
  forall w1 w2,
    w_params w1 = w_params w2 -> w_buffers w1 = w_buffers w2 ->
    fst (collect (test_batch d) l w1) = fst (collect (test_batch d) l w2).
Proof.
  induction l as [|[x y] l IH]; intros w1 w2 Hp Hb; [reflexivity|].
  cbn [collect]. unfold bind at 1 3.
  pose proof (buffers_untouched_by_test_batch d (x, y) w1) as B1.
  pose proof (buffers_untouched_by_test_batch d (x, y) w2) as B2.
  pose proof (@test_batch_frame _ w_params d (x, y) w1) as P1.
  pose proof (@test_batch_frame _ w_params d (x, y) w2) as P2.
  assert (F : fst (test_batch d (x, y) w1) = fst (test_batch d (x, y) w2)).
  { rewrite !test_batch_run, Hp, Hb. destruct (device_usable d); reflexivity. }
  destruct (test_batch d (x, y) w1) as [[e1|v1] w1'];
    destruct (test_batch d (x, y) w2) as [[e2|v2] w2']; cbn in F;
    try discriminate; [inversion F; reflexivity|].
  inversion F; subst v2. cbn [snd] in *.
  assert (E : fst (collect (test_batch d) l w1')
              = fst (collect (test_batch d) l w2')).
  { apply IH.
    - rewrite P1, P2 by (intros ? ? ? ? ?; reflexivity). assumption.
    - congruence. }
  unfold bind.
  destruct (collect (test_batch d) l w1') as [[e1|vs1] w1''];
    destruct (collect (test_batch d) l w2') as [[e2|vs2] w2''];
    cbn in E; try discriminate; cbn; congruence.
Qed.

Lemma test_step_same d l w1 w2 :
  w_params w1 = w_params w2 -> w_buffers w1 = w_buffers w2 ->
  fst (test_step d l w1) = fst (test_step d l w2).
Proof.
  intros Hp Hb. rewrite !test_step_values. unfold bind.
  rewrite !test_values_run.
  destruct (device_usable d); [|reflexivity].
  pose proof (collect_test_same d l (enter_pass d w1) (enter_pass d w2)
                Hp Hb) as E.
  destruct (collect (test_batch d) l (enter_pass d w1)) as [[e1|vs1] w1'];
    destruct (collect (test_batch d) l (enter_pass d w2)) as [[e2|vs2] w2'];
    cbn in E; try discriminate; [inversion E; reflexivity|].
  inversion E; subst. apply average_pure.
Qed.

Lemma test_step_buffers d l w :
  w_buffers (snd (test_step d l w)) = w_buffers w.
Proof.
  rewrite test_step_world. destruct (device_usable d); [|reflexivity].
  rewrite collect_preserves; [reflexivity|].
  intros; apply buffers_untouched_by_test_batch.
Qed.

End FrozenBuffers.

(** C6: whatever path [test_step] takes, it leaves the parameters of the
    model, their gradients, the state and the step count of the optimizer
    and the step count of the scheduler as they were, as it does every
    observation that does not look at the buffers, the mode, the device or
    the trace; and when the model keeps its buffers in evaluation mode, a
    second [test_step] on the same loader returns exactly what the first one
    returned. *)
Theorem test_step_mutates_nothing d l w :
  w_params (snd (test_step d l w)) = w_params w /\
  w_grads (snd (test_step d l w)) = w_grads w /\
  w_opt (snd (test_step d l w)) = w_opt w /\
  w_opt_steps (snd (test_step d l w)) = w_opt_steps w /\
  w_sched_steps (snd (test_step d l w)) = w_sched_steps w /\
  (forall X (f : world -> X),
     untouched_by_eval f -> f (snd (test_step d l w)) = f w) /\
  ((forall p b x, snd (forward false p b x) = b) ->
   w_buffers (snd (test_step d l w)) = w_buffers w /\
   fst (test_step d l (snd (test_step d l w))) = fst (test_step d l w)).
Proof.
  repeat split;
    try (apply test_step_frame; intros ? ? ? ? ?; reflexivity).
  - intros X f. apply test_step_frame.
  - now apply test_step_buffers.
  - apply test_step_same; [assumption| |].
    + apply test_step_frame. intros ? ? ? ? ?; reflexivity.
    + now apply test_step_buffers.
Qed.

(** ** The driver *)

Lemma bind_success {A B} (m : M A) (k : A -> M B) w b w' :
  bind m k w = (inr b, w') ->
  exists a w1, m w = (inr a, w1) /\ k a w1 = (inr b, w').
Proof.
  unfold bind. destruct (m w) as [[e|a] w1]; [discriminate|]. eauto.
Qed.

Lemma train_epoch_sched_steps d tl vl res epoch w :
  w_sched_steps (snd (train_epoch d tl vl res epoch w)) = w_sched_steps w.
Proof.
  revert w. unfold train_epoch.
  apply bind_preserves;
    [intros; apply train_step_frame, sched_steps_untouched|].
  intros [trl tra]. apply bind_preserves;
    [intros; apply test_step_frame, eval_is_training_frame,
       sched_steps_untouched|].
  intros [tel tea]. apply bind_preserves; [reflexivity|]. intros _.
  apply bind_preserves; [reflexivity|]. intros l1.
  apply bind_preserves; [reflexivity|]. intros l2.
  apply bind_preserves; reflexivity.
Qed.

(** C1 (what the code does): whether or not a scheduler is handed to
    [train], no run of [train] ever steps it; [train] with a scheduler is
    [train] without one. *)
Theorem train_never_steps_the_scheduler s epochs d tl vl w :
  train s epochs d tl vl w = train None epochs d tl vl w /\
  w_sched_steps (snd (train s epochs d tl vl w)) = w_sched_steps w.
Proof.
  split; [reflexivity|]. unfold train. revert w.
  apply bind_preserves; [reflexivity|]. intros _.
  apply for_each_preserves. intros. apply train_epoch_sched_steps.
Qed.

Lemma item_value v r : item v = inr r -> val_of v = r.
Proof. destruct v; cbn; congruence. Qed.

Lemma train_epoch_success d tl vl res epoch w res' w' :
  train_epoch d tl vl res epoch w = (inr res', w') ->
  exists line,
    w_stdout w' = w_stdout w ++ [line] /\
    line_epoch line = epoch + 1 /\
    train_loss res' = train_loss res ++ [line_train_loss line] /\
    train_acc res' = train_acc res ++ [line_train_acc line] /\
    test_loss res' = test_loss res ++ [line_test_loss line] /\
    test_acc res' = test_acc res ++ [line_test_acc line].
Proof.
  unfold train_epoch. intros H.
  apply bind_success in H. destruct H as ([trl tra] & w1 & H1 & H).
  apply bind_success in H. destruct H as ([tel tea] & w2 & H2 & H).
  unfold print in H. rewrite bind_modify, bind_lift in H.
  destruct (item trl) as [e|l1] eqn:E1; [discriminate|].
  rewrite bind_lift in H.
  destruct (item tel) as [e|l2] eqn:E2; [discriminate|].
  rewrite bind_emit in H. inversion H; subst; clear H.
  apply item_value in E1, E2.
  exists (mkLine (epoch + 1) (val_of trl) (val_of tel) (val_of tra)
                 (val_of tea)).
  cbn. rewrite E1, E2. repeat split.
  pose proof (train_step_frame d tl w stdout_untouched) as F1.
  pose proof (test_step_frame d vl w1
                (eval_is_training_frame stdout_untouched)) as F2.
  rewrite H1 in F1. rewrite H2 in F2. cbn in F1, F2. congruence.
Qed.

Lemma train_loop_success d tl vl n :
  forall start res w res' w',
    for_each (seq start n) (train_epoch d tl vl) res w = (inr res', w') ->
    exists lines,
      w_stdout w' = w_stdout w ++ lines /\
      map line_epoch lines = seq (start + 1) n /\
      train_loss res' = train_loss res ++ map line_train_loss lines /\
      train_acc res' = train_acc res ++ map line_train_acc lines /\
      test_loss res' = test_loss res ++ map line_test_loss lines /\
      test_acc res' = test_acc res ++ map line_test_acc lines.
Proof.
  induction n as [|n IH]; intros start res w res' w' H.
  - inversion H; subst. exists []. cbn. rewrite !app_nil_r. auto 10.
  - cbn [seq for_each] in H. apply bind_success in H.
    destruct H as (res1 & w1 & He & H).
    apply train_epoch_success in He.
    destruct He as (line & Ho & Hn & H1 & H2 & H3 & H4).
    apply IH in H. destruct H as (lines & Ho' & Hn' & H1' & H2' & H3' & H4').
    exists (line :: lines). cbn [map seq].
    rewrite Ho', Ho, H1', H1, H2', H2, H3', H3, H4', H4, Hn, <- !app_assoc.
    replace (S start + 1) with (S (start + 1)) in Hn' by lia.
    rewrite Hn'. cbn. auto 10.
Qed.

(** C3: a completed [train] over [e >= 0] epochs has printed [e] progress
    lines, numbered 1 to [e] in this order, and each of the four lists of
    its result holds, in the same order, the corresponding value of every
    line; so each list has exactly [e] entries, one per epoch. *)
Theorem train_records_every_epoch s e d tl vl w res w' :
  (0 <= e)%Z ->
  train s e d tl vl w = (inr res, w') ->
  (Z.of_nat (length (train_loss res)) = e /\
   Z.of_nat (length (train_acc res)) = e /\
   Z.of_nat (length (test_loss res)) = e /\
   Z.of_nat (length (test_acc res)) = e) /\
  exists lines,
    w_stdout w' = w_stdout w ++ lines /\
    map line_epoch lines = seq 1 (Z.to_nat e) /\
    train_loss res = map line_train_loss lines /\
    train_acc res = map line_train_acc lines /\
    test_loss res = map line_test_loss lines /\
    test_acc res = map line_test_acc lines.
Proof.
  intros He H. unfold train in H. rewrite bind_emit in H.
  apply train_loop_success in H.
  destruct H as (lines & Ho & Hn & H1 & H2 & H3 & H4). cbn in *.
  assert (Hlen : Z.of_nat (length lines) = e).
  { rewrite <- (length_map line_epoch), Hn, length_seq. lia. }
  split.
  - rewrite H1, H2, H3, H4, !length_map. auto.
  - exists lines. auto 10.
Qed.

Lemma count_event_snoc a t b :
  count_event a (t ++ [b]) =
  count_event a t + (if event_eqb a b then 1 else 0).
Proof.
  unfold count_event. rewrite filter_app, length_app. cbn.
  destruct (event_eqb a b); reflexivity.
Qed.

(** C7: [train] with [epochs = 0] returns the result with four empty lists;
    all it does is open the progress bar with a total of 0: no loader is
    iterated, no line is printed, the bar never moves, whatever the loaders
    are. *)
Theorem train_zero_epochs s d tl vl w :
  train s 0 d tl vl w = (inr empty_result, log (ETqdmOpen 0) w) /\
  train_loss empty_result = [] /\ train_acc empty_result = [] /\
  test_loss empty_result = [] /\ test_acc empty_result = [] /\
  w_trace (snd (train s 0 d tl vl w)) = w_trace w ++ [ETqdmOpen 0] /\
  count_event EIterate (w_trace (snd (train s 0 d tl vl w)))
    = count_event EIterate (w_trace w) /\
  count_event ETqdmUpdate (w_trace (snd (train s 0 d tl vl w)))
    = count_event ETqdmUpdate (w_trace w) /\
  w_stdout (snd (train s 0 d tl vl w)) = w_stdout w.
Proof.
  repeat split; cbn [train fst snd]; unfold train; rewrite bind_emit;
    cbn [Z.to_nat seq for_each ret snd log w_trace];
    rewrite count_event_snoc; cbn [event_eqb]; lia.
Qed.

(** *** Runs that complete *)

Lemma train_batch_completes s d b w :
  device_usable d = true -> well_shaped b ->
  exists v w', train_batch s d b w = (inr v, w').
Proof.
  intros Hd (Hy & Hal & Hrows). destruct b as [x y].
  rewrite train_batch_run, Hd. cbv zeta.
  destruct (accuracy_of_well_shaped Hy
              (Hal true (w_params w) (w_buffers w))
              (Hrows true (w_params w) (w_buffers w))) as [a Ha].
  cbn [fst snd] in Ha. rewrite Ha. eauto.
Qed.

Lemma test_batch_completes d b w :
  device_usable d = true -> well_shaped b ->
  exists v w', test_batch d b w = (inr v, w').
Proof.
  intros Hd (Hy & Hal & Hrows). destruct b as [x y].
  rewrite test_batch_run, Hd. cbv zeta.
  destruct (accuracy_of_well_shaped Hy
              (Hal false (w_params w) (w_buffers w))
              (Hrows false (w_params w) (w_buffers w))) as [a Ha].
  cbn [fst snd] in Ha. rewrite Ha. eauto.
Qed.

Lemma collect_completes {A} (body : batch -> M A) l :
  (forall b w, In b l -> exists v w', body b w = (inr v, w')) ->
  forall w, exists vals w', collect body l w = (inr vals, w').
Proof.
  induction l as [|b l IH]; intros Hb w; [cbn; unfold ret; eauto|].
  cbn [collect]. unfold bind at 1.
  destruct (Hb b w (or_introl eq_refl)) as (v & w1 & ->).
  destruct (IH (fun b' w' Hin => Hb b' w' (or_intror Hin)) w1)
    as (vs & w2 & E).
  unfold bind at 1. rewrite E. cbn. unfold ret. eauto.
Qed.

Lemma pass_completes (body : batch -> M (R * R)) d l w :
  device_usable d = true -> l <> [] ->
  (forall b w, In b l -> exists v w', body b w = (inr v, w')) ->
  exists t a w',
    bind (bind (model_to d)
            (fun _ => bind (emit EIterate) (fun _ => collect body l)))
         (fun vals =>
            average (fold_left add_metrics vals (PyInt 0, PyInt 0))
                    (length l)) w
    = (inr (Tensor t, PyFloat a), w').
Proof.
  intros Hd Hl Hb. unfold bind at 1. rewrite enter_pass_run, Hd.
  destruct (collect_completes body l Hb (enter_pass d w)) as (vals & w' & E).
  rewrite E. pose proof (collect_length _ _ _ E) as Hlen.
  destruct l as [|b l]; [congruence|].
  destruct vals as [|v vals]; [discriminate|].
  rewrite totals_of_values. cbn [length]. rewrite average_run. eauto.
Qed.

Lemma train_step_completes s d l w :
  device_usable d = true -> l <> [] -> Forall well_shaped l ->
  exists t a w', train_step s d l w = (inr (Tensor t, PyFloat a), w').
Proof.
  intros Hd Hl Hws. rewrite train_step_values.
  apply pass_completes; try assumption.
  intros b w1 Hin. apply train_batch_completes; [assumption|].
  rewrite Forall_forall in Hws. auto.
Qed.

Lemma test_step_completes d l w :
  device_usable d = true -> l <> [] -> Forall well_shaped l ->
  exists t a w', test_step d l w = (inr (Tensor t, PyFloat a), w').
Proof.
  intros Hd Hl Hws. rewrite test_step_values.
  apply pass_completes; try assumption.
  intros b w1 Hin. apply test_batch_completes; [assumption|].
  rewrite Forall_forall in Hws. auto.
Qed.

Lemma train_completes s e d tl vl w :
  device_usable d = true -> tl <> [] -> vl <> [] ->
  Forall well_shaped tl -> Forall well_shaped vl ->
  exists res w', train s e d tl vl w = (inr res, w').
Proof.
  intros Hd Ht Hv Wt Wv. unfold train. rewrite bind_emit.
  generalize (log (ETqdmOpen (Z.to_nat e)) w) as w0.
  generalize empty_result as res. generalize 0 as start.
  induction (Z.to_nat e) as [|n IH]; intros start res w0;
    [cbn; unfold ret; eauto|].
  cbn [seq for_each]. unfold bind at 1.
  assert (E : exists res1 w1,
             train_epoch d tl vl res start w0 = (inr res1, w1)).
  { unfold train_epoch. unfold bind at 1.
    destruct (train_step_completes None d w0 Hd Ht Wt) as (t1 & a1 & w1 & ->).
    unfold bind at 1.
    destruct (test_step_completes d w1 Hd Hv Wv) as (t2 & a2 & w2 & ->).
    unfold print. rewrite bind_modify, bind_lift. cbn [item].
    rewrite bind_lift. cbn [item]. rewrite bind_emit. unfold ret. eauto. }
  destruct E as (res1 & w1 & ->). apply IH.
Qed.

(** ** More about the passes and the driver *)

Lemma count_event_app a t t' :
  count_event a (t ++ t') = count_event a t + count_event a t'.
Proof. unfold count_event. now rewrite filter_app, length_app. Qed.

Lemma count_event_repeat {A} a ev (l : list A) :
  count_event a (flat_map (fun _ => ev) l) = length l * count_event a ev.
Proof.
  induction l as [|b l IH]; [reflexivity|].
  cbn [flat_map length]. rewrite count_event_app, IH. lia.
Qed.

Lemma collect_test_batch d l :
  forall w vals w',
    collect (test_batch d) l w = (inr vals, w') ->
    w_trace w' = w_trace w ++ flat_map (fun _ => test_batch_events d) l /\
    w_device w' = w_device w /\
    (l <> [] -> w_training w' = false).
Proof.
  induction l as [|[x y] l IH]; intros w vals w' H.
  - inversion H; subst. rewrite app_nil_r. repeat split. congruence.
  - cbn [collect] in H. apply bind_success in H.
    destruct H as (v & w1 & Hb & H). apply bind_success in H.
    destruct H as (vs & w2 & Hc & H). inversion H; subst; clear H.
    rewrite test_batch_run in Hb. destruct (device_usable d); [|discriminate].
    cbv zeta in Hb. destruct (accuracy_of _ _); [discriminate|].
    inversion Hb; subst; clear Hb.
    destruct (IH _ _ _ Hc) as (Ht & Hd & Hm). cbn in Ht, Hd, Hm.
    rewrite Ht, Hd. cbn [flat_map]. rewrite <- app_assoc.
    repeat split. intros _. destruct l as [|b l].
    + inversion Hc; subst. reflexivity.
    + apply Hm. discriminate.
Qed.

Lemma test_step_leaves d l w r w' :
  test_step d l w = (inr r, w') ->
  w_trace w' =
    w_trace w ++ [EModelTo d; EIterate]
            ++ flat_map (fun _ => test_batch_events d) l /\
  w_training w' = false /\ w_device w' = d.
Proof.
  intros H. apply test_step_success in H.
  destruct H as (vals & _ & Hc & _ & Hl & _).
  apply collect_test_batch in Hc. destruct Hc as (Ht & Hd & Hm).
  cbn [enter_pass w_trace w_device] in Ht, Hd.
  rewrite Ht, <- app_assoc. auto.
Qed.

(** X1: a completed [test_step] has moved the model, opened the loader and
    then, for each batch in turn, moved the batch, put the model in evaluation
    mode, run the forward pass, the loss and the accuracy, and nothing else:
    it never calls [zero_grad], [backward], [optimizer.step], [schedular.step]
    or [model.train], and it leaves the model in evaluation mode on the
    device it was given. *)
Theorem test_step_order d l w r w' :
  test_step d l w = (inr r, w') ->
  w_trace w' =
    w_trace w ++ [EModelTo d; EIterate]
            ++ flat_map (fun _ => test_batch_events d) l /\
  count_event EZeroGrad (w_trace w') = count_event EZeroGrad (w_trace w) /\
  count_event EBackward (w_trace w') = count_event EBackward (w_trace w) /\
  count_event EOptimizerStep (w_trace w')
    = count_event EOptimizerStep (w_trace w) /\
  count_event ESchedulerStep (w_trace w')
    = count_event ESchedulerStep (w_trace w) /\
  count_event ETrainMode (w_trace w') = count_event ETrainMode (w_trace w) /\
  count_event EForward (w_trace w')
    = count_event EForward (w_trace w) + length l /\
  w_training w' = false /\ w_device w' = d.
Proof.
  intros H. apply test_step_leaves in H. destruct H as (Ht & Hm & Hd).
  split; [exact Ht|].
  rewrite Ht, !count_event_app, !count_event_repeat.
  unfold test_batch_events. cbn [count_event filter event_eqb length].
  repeat split; try lia; assumption.
Qed.

Lemma train_epoch_leaves d tl vl res epoch w res' w' :
  train_epoch d tl vl res epoch w = (inr res', w') ->
  w_training w' = false /\ w_device w' = d /\
  w_opt_steps w' = w_opt_steps w + length tl /\
  count_event EForward (w_trace w')
    = count_event EForward (w_trace w) + (length tl + length vl).
Proof.
  unfold train_epoch. intros H.
  apply bind_success in H. destruct H as ([trl tra] & w1 & H1 & H).
  apply bind_success in H. destruct H as ([tel tea] & w2 & H2 & H).
  unfold print in H. rewrite bind_modify, bind_lift in H.
  destruct (item trl) as [e|l1]; [discriminate|].
  rewrite bind_lift in H.
  destruct (item tel) as [e|l2]; [discriminate|].
  rewrite bind_emit in H. inversion H; subst; clear H.
  unfold log. cbn [w_training w_device w_opt_steps w_trace].
  pose proof (@test_step_frame _ w_opt_steps d vl w1) as F.
  rewrite H2 in F. cbn in F. rewrite F by (intros ? ? ? ? ?; reflexivity).
  apply test_step_leaves in H2. destruct H2 as (Ht2 & Hm & Hd).
  apply train_step_success in H1.
  destruct H1 as (vals & _ & Hc & _ & _ & _).
  apply collect_train_batch in Hc. destruct Hc as (Ht1 & Ho & _).
  cbn [enter_pass w_trace w_opt_steps] in Ht1, Ho.
  rewrite count_event_snoc, Ht2, Ht1, !count_event_app, !count_event_repeat.
  unfold test_batch_events, train_batch_events.
  rewrite count_event_app.
  cbn [count_event filter event_eqb length app].
  repeat split; try assumption; lia.
Qed.

Lemma train_loop_leaves d tl vl n :
  forall start res w res' w',
    for_each (seq start n) (train_epoch d tl vl) res w = (inr res', w') ->
    (n <> 0 -> w_training w' = false /\ w_device w' = d) /\
    w_opt_steps w' = w_opt_steps w + n * length tl /\
    count_event EForward (w_trace w')
      = count_event EForward (w_trace w) + n * (length tl + length vl).
Proof.
  induction n as [|n IH]; intros start res w res' w' H.
  - inversion H; subst. split; [congruence|split; lia].
  - cbn [seq for_each] in H. apply bind_success in H.
    destruct H as (res1 & w1 & He & H).
    apply train_epoch_leaves in He. destruct He as (Hm & Hd & Ho & Hf).
    destruct (IH _ _ _ _ _ H) as (Hm' & Ho' & Hf').
    rewrite Ho', Ho, Hf', Hf. split; [intros _|split; lia].
    destruct n; [inversion H; subst; auto|]. now apply Hm'.
Qed.

(** X2: when [train] returns after at least one epoch, the model is in
    evaluation mode (the last thing done to it was [test_step]) and on the
    device that was passed. *)
Theorem train_leaves_eval_mode s e d tl vl w res w' :
  (0 < e)%Z ->
  train s e d tl vl w = (inr res, w') ->
  w_training w' = false /\ w_device w' = d.
Proof.
  intros He H. unfold train in H. rewrite bind_emit in H.
  apply train_loop_leaves in H. destruct H as (Hm & _). apply Hm. lia.
Qed.

(** X3: a completed [train] over [e >= 0] epochs has stepped the optimizer
    [e * len(trainloader)] times and has called the model
    [e * (len(trainloader) + len(testloader))] times. *)
Theorem train_counts_steps s e d tl vl w res w' :
  (0 <= e)%Z ->
  train s e d tl vl w = (inr res, w') ->
  Z.of_nat (w_opt_steps w')
    = (Z.of_nat (w_opt_steps w) + e * Z.of_nat (length tl))%Z /\
  Z.of_nat (count_event EForward (w_trace w'))
    = (Z.of_nat (count_event EForward (w_trace w))
       + e * Z.of_nat (length tl + length vl))%Z.
Proof.
  intros He H. unfold train in H. rewrite bind_emit in H.
  apply train_loop_leaves in H. destruct H as (_ & Ho & Hf).
  unfold log in Ho, Hf. cbn [w_opt_steps w_trace] in Ho, Hf.
  rewrite count_event_snoc in Hf. cbn [event_eqb] in Hf.
  rewrite Ho, Hf. split; nia.
Qed.

(** X4: with [epochs <= 0] the loop of [train] does not run: a negative count
    is no error and behaves like 0. *)
Theorem train_nonpositive_epochs s e d tl vl w :
  (e <= 0)%Z ->
  train s e d tl vl w = (inr empty_result, log (ETqdmOpen 0) w).
Proof.
  intros He. unfold train. replace (Z.to_nat e) with 0 by lia. reflexivity.
Qed.

Lemma train_first_epoch s e d tl vl w :
  (0 < e)%Z ->
  exists n,
    Z.to_nat e = S n /\
    train s e d tl vl w =
    bind (train_epoch d tl vl empty_result 0)
      (fun res => for_each (seq 1 n) (train_epoch d tl vl) res)
      (log (ETqdmOpen (Z.to_nat e)) w).
Proof.
  intros He. unfold train. rewrite bind_emit.
  destruct (Z.to_nat e) as [|n] eqn:En; [lia|].
  exists n. split; reflexivity.
Qed.

(** X5: [train] has no recovery.  With at least one epoch, an empty training
    loader makes it raise the [ZeroDivisionError] of the first [train_step]
    before any evaluation; and an empty test loader makes it raise that of the
    first [test_step] after a whole training pass: the optimizer has by then
    been stepped once per training batch, and nothing is printed or
    returned. *)
Theorem train_aborts_on_empty_loader s e d tl vl w :
  (0 < e)%Z -> device_usable d = true ->
  train s e d [] vl w
    = (inl ZeroDivisionError, enter_pass d (log (ETqdmOpen (Z.to_nat e)) w)) /\
  forall r w1,
    train_step None d tl (log (ETqdmOpen (Z.to_nat e)) w) = (inr r, w1) ->
    train s e d tl [] w = (inl ZeroDivisionError, enter_pass d w1) /\
    w_opt_steps (enter_pass d w1) = w_opt_steps w + length tl /\
    w_stdout (enter_pass d w1) = w_stdout w.
Proof.
  intros He Hd. split.
  - destruct (train_first_epoch s d [] vl w He) as (n & _ & ->).
    unfold bind at 1, train_epoch. unfold bind at 1.
    rewrite train_step_values. unfold bind at 1.
    rewrite train_values_run, Hd. reflexivity.
  - intros r w1 H1.
    destruct (train_first_epoch s d tl [] w He) as (n & _ & ->).
    unfold bind at 1, train_epoch. unfold bind at 1. rewrite H1.
    destruct r as [trl tra]. unfold bind at 1.
    rewrite test_step_values. unfold bind at 1.
    rewrite test_values_run, Hd. split; [reflexivity|].
    pose proof (train_step_frame d tl (log (ETqdmOpen (Z.to_nat e)) w)
                  stdout_untouched) as Fo.
    rewrite H1 in Fo. apply train_step_success in H1.
    destruct H1 as (vals & _ & Hc & _ & _ & _).
    apply collect_train_batch in Hc. destruct Hc as (_ & Ho & _).
    cbn in *. split; [lia|assumption].
Qed.

Lemma collect_test_reads d l :
  forall w1 w2,
    w_params w1 = w_params w2 -> w_buffers w1 = w_buffers w2 ->
    fst (collect (test_batch d) l w1) = fst (collect (test_batch d) l w2).
Proof.
  induction l as [|[x y] l IH]; intros w1 w2 Hp Hb; [reflexivity|].
  cbn [collect]. unfold bind at 1 3. rewrite !test_batch_run, Hp, Hb.
  destruct (device_usable d); [|reflexivity]. cbv zeta.
  destruct (accuracy_of _ _) as [e|a]; [reflexivity|]. unfold bind.
  match goal with
  | |- fst (match collect _ _ ?a with _ => _ end)
       = fst (match collect _ _ ?b with _ => _ end) =>
      pose proof (IH a b eq_refl eq_refl) as E;
      destruct (collect (test_batch d) l a) as [[e1|vs1] w1'];
      destruct (collect (test_batch d) l b) as [[e2|vs2] w2']
  end; cbn in E; try discriminate; cbn; congruence.
Qed.

(** X6: what [test_step] returns is determined by the parameters and the
    buffers of the model alone: the mode the model was left in, stale
    gradients, the optimizer, the scheduler and the device it was on
    make no difference. *)
Theorem test_step_reads_only_the_model d l w1 w2 :
  w_params w1 = w_params w2 -> w_buffers w1 = w_buffers w2 ->
  fst (test_step d l w1) = fst (test_step d l w2).
Proof.
  intros Hp Hb. rewrite !test_step_values. unfold bind.
  rewrite !test_values_run.
  destruct (device_usable d); [|reflexivity].
  pose proof (collect_test_reads d l (enter_pass d w1) (enter_pass d w2)
                Hp Hb) as E.
  destruct (collect (test_batch d) l (enter_pass d w1)) as [[e1|vs1] w1'];
    destruct (collect (test_batch d) l (enter_pass d w2)) as [[e2|vs2] w2'];
    cbn in E; try discriminate; [inversion E; reflexivity|].
  inversion E; subst. apply average_pure.
Qed.

(** X7: on a loader with at least one batch and a usable device, neither the
    gradients left over from earlier, nor the mode of the model, nor the
    device it was on have any influence on [train_step]: the result and the
    whole state afterwards are the same. *)
Theorem train_step_discards_stale_state s d l w g t dv :
  l <> [] -> device_usable d = true ->
  train_step s d l
    (mkWorld (w_params w) (w_buffers w) g t dv (w_opt w) (w_opt_steps w)
             (w_sched_steps w) (w_trace w) (w_stdout w))
  = train_step s d l w.
Proof.
  intros Hl Hd. destruct l as [|[x y] l]; [congruence|].
  rewrite !train_step_values. unfold bind.
  rewrite !train_values_run, Hd. cbn [collect]. unfold bind at 1 3.
  rewrite !train_batch_run, Hd. reflexivity.
Qed.

(** *** Every outcome of the driver *)

Lemma argmax_error t e : Torch.argmax t = inl e -> e = IndexError.
Proof.
  induction t as [|row t IH]; cbn [Torch.argmax]; [discriminate|].
  destruct row as [|x row]; cbn [Torch.argmax_row].
  - intros H. inversion H. reflexivity.
  - destruct (Torch.argmax t) as [e'|p]; [|discriminate].
    intros H. inversion H; subst. now apply IH.
Qed.

Lemma accuracy_of_error lg y e :
  accuracy_of (Torch.argmax lg) y = inl e -> e <> AttributeError.
Proof.
  unfold accuracy_of.
  destruct (Torch.argmax lg) as [e'|p] eqn:Ea.
  - intros H. inversion H; subst. apply argmax_error in Ea. now subst.
  - unfold Torch.eq. destruct (Nat.eqb (length y) (length p)).
    + destruct (Nat.eqb (length y) 0); [|discriminate].
      intros H. inversion H. discriminate.
    + destruct y as [|y0 [|y1 y]]; destruct p as [|p0 [|p1 p]];
        cbn; try discriminate; intros H; inversion H; discriminate.
Qed.

Lemma train_batch_error s d b w e :
  fst (train_batch s d b w) = inl e -> e <> AttributeError.
Proof.
  destruct b as [x y]. rewrite train_batch_run.
  destruct (device_usable d); [|cbn; intros H; inversion H; discriminate].
  cbv zeta. cbn [fst].
  destruct (accuracy_of _ _) as [e'|a] eqn:E; [|discriminate].
  intros H. inversion H; subst. eapply accuracy_of_error; eassumption.
Qed.

Lemma test_batch_error d b w e :
  fst (test_batch d b w) = inl e -> e <> AttributeError.
Proof.
  destruct b as [x y]. rewrite test_batch_run.
  destruct (device_usable d); [|cbn; intros H; inversion H; discriminate].
  cbv zeta. cbn [fst].
  destruct (accuracy_of _ _) as [e'|a] eqn:E; [|discriminate].
  intros H. inversion H; subst. eapply accuracy_of_error; eassumption.
Qed.

Lemma collect_error_source {A B} (body : A -> M B) l :
  forall w e,
    fst (collect body l w) = inl e ->
    exists a w0, In a l /\ fst (body a w0) = inl e.
Proof.
  induction l as [|a l IH]; intros w e H; [discriminate|].
  cbn [collect] in H. unfold bind at 1 in H.
  destruct (body a w) as [[e'|v] w1] eqn:Eb.
  - cbn in H. inversion H; subst. exists a, w. rewrite Eb. split; [now left|reflexivity].
  - unfold bind at 1 in H.
    destruct (collect body l w1) as [[e'|vs] w2] eqn:Ec; [|discriminate].
    cbn in H. inversion H; subst.
    destruct (IH w1 e) as (a0 & w0 & Hin & Ha); [now rewrite Ec|].
    exists a0, w0. split; [now right|assumption].
Qed.

Lemma average_error t n w e :
  fst (average t n w) = inl e -> e = ZeroDivisionError.
Proof.
  unfold average, lift, bind, ret, py_truediv.
  destruct t as [[z|r|r] [z'|r'|r']]; cbn;
    destruct (Nat.eqb n 0); cbn; intros H; inversion H; reflexivity.
Qed.

Lemma pass_error (body : batch -> M (R * R)) k d l w e :
  (forall b w0 e0, fst (body b w0) = inl e0 -> e0 <> AttributeError) ->
  fst (bind (bind (model_to d)
               (fun _ => bind (emit EIterate) (fun _ => collect body l)))
            (fun vals => average (k vals) (length l)) w) = inl e ->
  e <> AttributeError.
Proof.
  intros Hb. unfold bind at 1. rewrite enter_pass_run.
  destruct (device_usable d); [|cbn; intros H; inversion H; discriminate].
  destruct (collect body l (enter_pass d w)) as [[e'|vals] w1] eqn:Ec.
  - cbn. intros H. inversion H; subst.
    destruct (collect_error_source body l (enter_pass d w) (e := e))
      as (b & w0 & _ & Hbe); [now rewrite Ec|].
    eapply Hb; eassumption.
  - intros H. apply average_error in H. subst. discriminate.
Qed.

Lemma train_step_error s d l w e :
  fst (train_step s d l w) = inl e -> e <> AttributeError.
Proof.
  rewrite train_step_values. apply pass_error. apply train_batch_error.
Qed.

Lemma test_step_error d l w e :
  fst (test_step d l w) = inl e -> e <> AttributeError.
Proof.
  rewrite test_step_values. apply pass_error. apply test_batch_error.
Qed.

Lemma step_returns_tensor_and_float s d l w r w' :
  train_step s d l w = (inr r, w') \/ test_step d l w = (inr r, w') ->
  exists t a, r = (Tensor t, PyFloat a).
Proof.
  intros [H|H]; [apply train_step_success in H|apply test_step_success in H];
    destruct H as (vals & _ & _ & _ & _ & ->); eauto.
Qed.

(** What a pass does to the count of an event it never emits. *)
Lemma pass_keeps_count (ev : event) (body : batch -> M (R * R)) k d l w :
  event_eqb ev (EModelTo d) = false -> event_eqb ev EIterate = false ->
  (forall b w0, count_event ev (w_trace (snd (body b w0)))
                = count_event ev (w_trace w0)) ->
  count_event ev
    (w_trace (snd (bind (bind (model_to d)
                           (fun _ => bind (emit EIterate)
                                       (fun _ => collect body l)))
                        (fun vals => average (k vals) (length l)) w)))
  = count_event ev (w_trace w).
Proof.
  intros H1 H2 Hb. rewrite pass_world.
  destruct (device_usable d).
  - rewrite (collect_preserves (fun w0 => count_event ev (w_trace w0)) body l Hb).
    unfold enter_pass. cbn [w_trace].
    rewrite count_event_app. unfold count_event at 2. cbn [filter].
    rewrite H1, H2. cbn. lia.
  - unfold log. cbn [w_trace]. rewrite count_event_snoc, H1. lia.
Qed.

Lemma train_step_keeps_bar d l w :
  count_event ETqdmUpdate (w_trace (snd (train_step None d l w)))
  = count_event ETqdmUpdate (w_trace w).
Proof.
  rewrite train_step_values. apply pass_keeps_count; try reflexivity.
  intros [x y] w0. rewrite train_batch_run.
  destruct (device_usable d); cbn [snd w_trace]; unfold log; cbn [w_trace].
  - rewrite count_event_app. cbn. lia.
  - rewrite count_event_snoc. cbn. lia.
Qed.

Lemma test_step_keeps_bar d l w :
  count_event ETqdmUpdate (w_trace (snd (test_step d l w)))
  = count_event ETqdmUpdate (w_trace w).
Proof.
  rewrite test_step_values. apply pass_keeps_count; try reflexivity.
  intros [x y] w0. rewrite test_batch_run.
  destruct (device_usable d); cbn [snd w_trace]; unfold log; cbn [w_trace].
  - rewrite count_event_app. cbn. lia.
  - rewrite count_event_snoc. cbn. lia.
Qed.

Lemma train_epoch_outcome d tl vl res epoch w :
  match fst (train_epoch d tl vl res epoch w) with
  | inr _ =>
      exists line,
        w_stdout (snd (train_epoch d tl vl res epoch w)) = w_stdout w ++ [line]
        /\ line_epoch line = epoch + 1 /\
        count_event ETqdmUpdate
          (w_trace (snd (train_epoch d tl vl res epoch w)))
        = S (count_event ETqdmUpdate (w_trace w))
  | inl e =>
      e <> AttributeError /\
      w_stdout (snd (train_epoch d tl vl res epoch w)) = w_stdout w /\
      count_event ETqdmUpdate (w_trace (snd (train_epoch d tl vl res epoch w)))
      = count_event ETqdmUpdate (w_trace w)
  end.
Proof.
  destruct (train_epoch d tl vl res epoch w) as [out w'] eqn:E.
  cbn [fst snd]. unfold train_epoch in E. unfold bind at 1 in E.
  pose proof (train_step_frame d tl w stdout_untouched) as F1.
  pose proof (train_step_keeps_bar d tl w) as B1.
  pose proof (@train_step_error None d tl w) as E1.
  pose proof (@step_returns_tensor_and_float None d tl w) as T1.
  destruct (train_step None d tl w) as [[e|r1] w1]; cbn [fst snd] in *.
  { inversion E; subst. split; [now apply E1|]. split; assumption. }
  destruct (T1 r1 w1 (or_introl eq_refl)) as (t1 & a1 & ->).
  unfold bind at 1 in E.
  pose proof (test_step_frame d vl w1
                (eval_is_training_frame stdout_untouched)) as F2.
  pose proof (test_step_keeps_bar d vl w1) as B2.
  pose proof (@test_step_error d vl w1) as E2.
  pose proof (@step_returns_tensor_and_float None d vl w1) as T2.
  destruct (test_step d vl w1) as [[e|r2] w2]; cbn [fst snd] in *.
  { inversion E; subst. split; [now apply E2|]. split; congruence. }
  destruct (T2 r2 w2 (or_intror eq_refl)) as (t2 & a2 & ->).
  unfold print in E. rewrite bind_modify, bind_lift in E. cbn [item] in E.
  rewrite bind_lift in E. cbn [item] in E. rewrite bind_emit in E.
  inversion E; subst; clear E.
  eexists. unfold log. cbn [w_stdout w_trace].
  rewrite F2, F1, count_event_snoc, B2, B1. cbn [event_eqb line_epoch].
  repeat split. lia.
Qed.

Lemma train_loop_outcome d tl vl n :
  forall start res w,
    exists lines,
      w_stdout (snd (for_each (seq start n) (train_epoch d tl vl) res w))
      = w_stdout w ++ lines /\
      map line_epoch lines = seq (start + 1) (length lines) /\
      count_event ETqdmUpdate
        (w_trace (snd (for_each (seq start n) (train_epoch d tl vl) res w)))
      = count_event ETqdmUpdate (w_trace w) + length lines /\
      match fst (for_each (seq start n) (train_epoch d tl vl) res w) with
      | inr _ => length lines = n
      | inl e => length lines < n /\ e <> AttributeError
      end.
Proof.
  induction n as [|n IH]; intros start res w.
  - exists []. cbn. rewrite app_nil_r. repeat split. lia.
  - cbn [seq for_each]. unfold bind.
    pose proof (train_epoch_outcome d tl vl res start w) as He.
    destruct (train_epoch d tl vl res start w) as [[e|res1] w1];
      cbn [fst snd] in He.
    + destruct He as (Hne & Ho & Hb). exists []. cbn [fst snd length].
      rewrite app_nil_r. repeat split; try assumption; lia.
    + destruct He as (line & Ho & Hn & Hb).
      destruct (IH (S start) res1 w1) as (lines & Ho' & Hn' & Hb' & Hr).
      exists (line :: lines). cbn [map length seq].
      rewrite Ho', Ho, Hb', Hb, Hn, <- app_assoc.
      replace (S start + 1) with (S (start + 1)) in Hn' by lia.
      rewrite Hn'. repeat split; try lia.
      destruct (fst (for_each (seq (S start) n) (train_epoch d tl vl) res1 w1));
        [destruct Hr; split; [lia|assumption]|lia].
Qed.

(** X17: a [train_step] or [test_step] that returns, returns a 0-d tensor for
    the loss and a Python float for the accuracy, so the [.item()] that
    [train] calls on the two losses cannot fail: whatever [train] raises, it
    is never an [AttributeError]. *)
Theorem train_item_calls_are_safe s epochs d tl vl w :
  (forall s' l w0 r w1,
     train_step s' d l w0 = (inr r, w1) \/ test_step d l w0 = (inr r, w1) ->
     exists t a, r = (Tensor t, PyFloat a) /\ item (fst r) = inr t /\
                 item (snd r) = inl AttributeError) /\
  fst (train s epochs d tl vl w) <> inl AttributeError.
Proof.
  split.
  - intros s' l w0 r w1 H.
    destruct (@step_returns_tensor_and_float s' d l w0 r w1 H)
      as (t & a & ->). eauto.
  - unfold train. rewrite bind_emit.
    destruct (train_loop_outcome d tl vl (Z.to_nat epochs) 0 empty_result
                (log (ETqdmOpen (Z.to_nat epochs)) w)) as (lines & _ & _ & _ & H).
    destruct (fst (for_each _ _ _ _)); [|discriminate].
    destruct H as (_ & Hne). congruence.
Qed.

(** X18: whether [train] returns or raises, it has printed one line for each
    epoch it completed, numbered from 1 without a gap, and has moved the
    progress bar once for each of them; it has completed all [epochs] exactly
    when it returns.  An epoch that fails prints nothing. *)
Theorem train_prints_completed_epochs s epochs d tl vl w :
  (0 <= epochs)%Z ->
  exists lines,
    w_stdout (snd (train s epochs d tl vl w)) = w_stdout w ++ lines /\
    map line_epoch lines = seq 1 (length lines) /\
    count_event ETqdmUpdate (w_trace (snd (train s epochs d tl vl w)))
    = count_event ETqdmUpdate (w_trace w) + length lines /\
    (Z.of_nat (length lines) <= epochs)%Z /\
    (Z.of_nat (length lines) = epochs <->
     exists res, fst (train s epochs d tl vl w) = inr res).
Proof.
  intros He. unfold train. rewrite bind_emit.
  set (w0 := log (ETqdmOpen (Z.to_nat epochs)) w).
  assert (Hw : w_stdout w0 = w_stdout w) by reflexivity.
  assert (Ht : count_event ETqdmUpdate (w_trace w0)
               = count_event ETqdmUpdate (w_trace w)).
  { unfold w0, log. cbn [w_trace]. rewrite count_event_snoc. cbn. lia. }
  destruct (train_loop_outcome d tl vl (Z.to_nat epochs) 0 empty_result w0)
    as (lines & Ho & Hn & Hb & H).
  exists lines. rewrite Hw in Ho. rewrite Ht in Hb.
  split; [exact Ho|]. split; [exact Hn|]. split; [exact Hb|].
  destruct (fst (for_each _ _ _ _)) as [e|res].
  - destruct H as (Hlt & _). split; [lia|]. split; [lia|].
    intros [res Hres]. discriminate.
  - split; [lia|]. split; [eauto|lia].
Qed.

End EngineFacts.


(** * The concrete setting, run *)

Module DemoFacts.

Import Demo.

Lemma run_result {A} (m : @M demo A) w a :
  fst (m w) = inr a -> m w = (inr a, snd (m w)).
Proof. destruct (m w) as [r w']. cbn. now intros ->. Qed.

Lemma accuracy_b1 :
  accuracy_of (Torch.argmax (Torch.softmax [[1; 0]%R])) [0%Z] = inr (1 / 1)%R.
Proof.
  rewrite softmax_keeps_argmax by (repeat constructor; apply keeps_order_10).
  cbn [Torch.argmax Torch.argmax_row Torch.argmax_from].
  destruct (Rlt_dec 1 0) as [H|_]; [lra|]. reflexivity.
Qed.

Lemma accuracy_b2 :
  accuracy_of (Torch.argmax (Torch.softmax [[0; 1]; [1; 0]]%R)) [0%Z; 0%Z]
  = inr (1 / (1 + 1))%R.
Proof.
  rewrite softmax_keeps_argmax
    by (repeat constructor; [apply keeps_order_01|apply keeps_order_10]).
  cbn [Torch.argmax Torch.argmax_row Torch.argmax_from].
  destruct (Rlt_dec 0 1) as [_|H]; [|lra].
  destruct (Rlt_dec 1 0) as [H|_]; [lra|]. reflexivity.
Qed.

Lemma accuracy_b_wide :
  accuracy_of (Torch.argmax (Torch.softmax [[1; 0]; [1; 0]]%R)) [0%Z]
  = inr ((1 + 1) / 1)%R.
Proof.
  rewrite softmax_keeps_argmax
    by (repeat constructor; apply keeps_order_10).
  cbn [Torch.argmax Torch.argmax_row Torch.argmax_from].
  destruct (Rlt_dec 1 0) as [H|_]; [lra|]. reflexivity.
Qed.

Lemma value_inj (v : R * R) a b : fst v = a -> inr (A := exn) b = inr (snd v) -> v = (a, b).
Proof. destruct v; cbn; intros -> H; inversion H; reflexivity. Qed.

(** The per-batch values of a training pass over [b1] and [b2]: losses 2 and
    4, accuracies 1 and 1/2. *)
Lemma demo_train_values s vals (w w' : @world demo) :
  collect (train_batch s cpu) [b1; b2] w = (inr vals, w') ->
  vals = [((2 * 1)%R, (1 / 1)%R); ((2 * (1 + 1))%R, (1 / (1 + 1))%R)].
Proof.
  cbn [collect]. intros H.
  apply bind_success in H. destruct H as (v1 & w1 & H1 & H).
  apply bind_success in H. destruct H as (vs & w2 & H2 & H).
  inversion H; subst; clear H.
  apply bind_success in H2. destruct H2 as (v2 & w3 & H2 & H).
  inversion H; subst; clear H.
  apply train_batch_success in H1, H2.
  destruct H1 as (L1 & A1 & _), H2 as (L2 & A2 & _).
  cbn [forward demo fst snd] in A1, A2.
  rewrite accuracy_b1 in A1. rewrite accuracy_b2 in A2.
  now rewrite (value_inj v1 L1 A1), (value_inj v2 L2 A2).
Qed.

Lemma demo_test_values vals (w w' : @world demo) :
  collect (test_batch cpu) [b1; b2] w = (inr vals, w') ->
  vals = [((2 * 1)%R, (1 / 1)%R); ((2 * (1 + 1))%R, (1 / (1 + 1))%R)].
Proof.
  cbn [collect]. intros H.
  apply bind_success in H. destruct H as (v1 & w1 & H1 & H).
  apply bind_success in H. destruct H as (vs & w2 & H2 & H).
  inversion H; subst; clear H.
  apply bind_success in H2. destruct H2 as (v2 & w3 & H2 & H).
  inversion H; subst; clear H.
  apply test_batch_success in H1, H2.
  destruct H1 as (L1 & A1 & _), H2 as (L2 & A2 & _).
  cbn [forward demo fst snd] in A1, A2.
  rewrite accuracy_b1 in A1. rewrite accuracy_b2 in A2.
  now rewrite (value_inj v1 L1 A1), (value_inj v2 L2 A2).
Qed.

Lemma demo_aligned : Forall (@aligned demo) [b1; b2].
Proof. repeat constructor. Qed.

Lemma demo_loss_nonneg (x : @Input demo) (y : list Z) (lg : list (list R)) :
  In (x, y) [b1; b2] -> (0 <= @loss_fn demo lg y)%R.
Proof.
  intros _. cbn. apply Rmult_le_pos; [lra|apply pos_INR].
Qed.

(** C1 (at the failing input): [train] with a scheduler, one epoch and one
    training batch steps the optimizer once and the scheduler not at all,
    whereas [train_step] with the same scheduler on the same batch steps it
    once. *)
Theorem train_drops_the_scheduler_demo :
  let w' := snd (@train demo (Some LRScheduler) 1 cpu [b1] [b1] w0) in
  (exists res, fst (@train demo (Some LRScheduler) 1 cpu [b1] [b1] w0) = inr res) /\
  w_opt_steps w' = 1 /\
  count_event EOptimizerStep (w_trace w') = 1 /\
  w_sched_steps w' = 0 /\
  count_event ESchedulerStep (w_trace w') = 0 /\
  w_sched_steps (snd (@train_step demo (Some LRScheduler) cpu [b1] w0)) = 1.
Proof.
  cbv zeta. split; [eexists; cbv -[Float32.round]; reflexivity|].
  repeat split; cbv -[Float32.round]; reflexivity.
Qed.

(** C2 (as the claim words it, refuted): on the empty loader nothing is
    reported by the part of [train_step] or [test_step] that precedes the
    average, and the exception that is raised is no other than the
    [ZeroDivisionError] of the division. *)
Lemma empty_loader_not_reported_before_average :
  ~ ((exists e, fst (@train_values demo None cpu [] w0) = inl e) \/
     (exists e, fst (@test_values demo cpu [] w0) = inl e) \/
     (exists e, fst (@train_step demo None cpu [] w0) = inl e /\
                e <> ZeroDivisionError) \/
     (exists e, fst (@test_step demo cpu [] w0) = inl e /\
                e <> ZeroDivisionError)).
Proof.
  intros [[e H]|[[e H]|[[e [H Hne]]|[e [H Hne]]]]].
  - discriminate H.
  - discriminate H.
  - apply Hne. cbv -[Float32.round] in H. congruence.
  - apply Hne. cbv -[Float32.round] in H. congruence.
Qed.

Lemma empty_loader_raises_witness :
  @device_usable demo cpu = true /\
  @train_step demo None cpu [] w0 = (inl ZeroDivisionError, enter_pass cpu w0) /\
  @test_step demo cpu [] w0 = (inl ZeroDivisionError, enter_pass cpu w0).
Proof.
  split; [reflexivity|].
  exact (proj2 (proj2 (@empty_loader_raises demo None cpu w0)) eq_refl).
Defined.

Lemma train_records_every_epoch_witness :
  (0 <= 2)%Z /\
  exists res,
    fst (@train demo None 2 cpu [b1; b2] [b1] w0) = inr res /\
    Z.of_nat (length (train_loss res)) = 2%Z /\
    Z.of_nat (length (train_acc res)) = 2%Z /\
    Z.of_nat (length (test_loss res)) = 2%Z /\
    Z.of_nat (length (test_acc res)) = 2%Z /\
    map line_epoch (w_stdout (snd (@train demo None 2 cpu [b1; b2] [b1] w0)))
      = [1; 2].
Proof.
  split; [lia|].
  assert (E : exists res,
             fst (@train demo None 2 cpu [b1; b2] [b1] w0) = inr res)
    by (eexists; cbv -[Float32.round]; reflexivity).
  destruct E as (res & E). exists res. split; [exact E|].
  destruct (@train_records_every_epoch demo None 2 cpu [b1; b2] [b1] w0 res _
              ltac:(lia) (run_result _ _ E))
    as ((L1 & L2 & L3 & L4) & lines & Ho & Hn & _).
  refine (conj L1 (conj L2 (conj L3 (conj L4 _)))).
  rewrite Ho. exact Hn.
Defined.

Lemma step_returns_batch_means_witness :
  [b1; b2] <> [] /\
  (exists w', @train_step demo None cpu [b1; b2] w0
              = (inr (Tensor 3, PyFloat (3 / 4)), w')) /\
  (exists w', @test_step demo cpu [b1; b2] w0
              = (inr (Tensor 3, PyFloat (3 / 4)), w')).
Proof.
  split; [discriminate|].
  destruct (@step_returns_batch_means demo None cpu [b1; b2] w0
              ltac:(discriminate)) as (H1 & H2 & _).
  rewrite H1, H2, train_values_run, test_values_run. cbn [device_usable].
  assert (Hm : (Tensor (total [2 * 1; 2 * (1 + 1)]%R / INR 2),
                PyFloat (total [1 / 1; 1 / (1 + 1)]%R / INR 2))
               = (Tensor 3, PyFloat (3 / 4))).
  { unfold total. cbn. f_equal; f_equal; lra. }
  split.
  - destruct (collect (train_batch None cpu) [b1; b2] (enter_pass cpu w0))
      as [[e|vals] w'] eqn:E.
    + exfalso.
      assert (F : exists v, fst (collect (@train_batch demo None cpu) [b1; b2]
                                   (enter_pass cpu w0)) = inr v)
        by (eexists; cbv -[Float32.round]; reflexivity).
      destruct F as (v & F). rewrite E in F. discriminate F.
    + apply demo_train_values in E. subst vals. exists w'.
      cbn [map fst snd length]. now rewrite Hm.
  - destruct (collect (test_batch cpu) [b1; b2] (enter_pass cpu w0))
      as [[e|vals] w'] eqn:E.
    + exfalso.
      assert (F : exists v, fst (collect (@test_batch demo cpu) [b1; b2]
                                   (enter_pass cpu w0)) = inr v)
        by (eexists; cbv -[Float32.round]; reflexivity).
      destruct F as (v & F). rewrite E in F. discriminate F.
    + apply demo_test_values in E. subst vals. exists w'.
      cbn [map fst snd length]. now rewrite Hm.
Defined.

Lemma train_step_order_witness :
  exists r,
    fst (@train_step demo (Some LRScheduler) cpu [b1; b2] w0) = inr r /\
    let w' := snd (@train_step demo (Some LRScheduler) cpu [b1; b2] w0) in
    w' = after_pass (Some LRScheduler) cpu [b1; b2] (enter_pass cpu w0) /\
    (exists vals : list (R * R),
       map (fun v => (fst v, inr (snd v))) vals
       = pass_metrics (Some LRScheduler) cpu [b1; b2] (enter_pass cpu w0) /\
       average (fold_left add_metrics vals (PyInt 0, PyInt 0)) 2 w'
       = (inr r, w')) /\
    w_trace w' =
      [EModelTo cpu; EIterate;
       EBatchTo cpu; ETrainMode; EForward; ELoss; EZeroGrad; EBackward;
       EOptimizerStep; ESchedulerStep; EAccuracy;
       EBatchTo cpu; ETrainMode; EForward; ELoss; EZeroGrad; EBackward;
       EOptimizerStep; ESchedulerStep; EAccuracy] /\
    w_opt_steps w' = 2 /\ w_sched_steps w' = 2.
Proof.
  assert (E : exists r,
             fst (@train_step demo (Some LRScheduler) cpu [b1; b2] w0) = inr r)
    by (eexists; cbv -[Float32.round]; reflexivity).
  destruct E as (r & E). exists r. split; [exact E|].
  exact (@train_step_order demo (Some LRScheduler) cpu [b1; b2] w0 r _
           (run_result _ _ E)).
Defined.

Lemma test_step_mutates_nothing_witness :
  (forall p b x, snd (@forward demo false p b x) = b) /\
  w_params (snd (@test_step demo cpu [b1; b2] w0)) = 10%Z /\
  w_buffers (snd (@test_step demo cpu [b1; b2] w0)) = 0 /\
  fst (@test_step demo cpu [b1; b2] (snd (@test_step demo cpu [b1; b2] w0)))
    = fst (@test_step demo cpu [b1; b2] w0).
Proof.
  assert (Hf : forall p b x, snd (@forward demo false p b x) = b)
    by reflexivity.
  split; [exact Hf|].
  destruct (@test_step_mutates_nothing demo cpu [b1; b2] w0)
    as (Hp & _ & _ & _ & _ & _ & H).
  destruct (H Hf) as (Hb & Hr).
  exact (conj Hp (conj Hb Hr)).
Defined.

Lemma step_metrics_in_range_witness :
  exists r,
    fst (@train_step demo None cpu [b1; b2] w0) = inr r /\
    (0 <= val_of (snd r) <= 1)%R /\ (0 <= val_of (fst r))%R.
Proof.
  assert (E : exists r, fst (@train_step demo None cpu [b1; b2] w0) = inr r)
    by (eexists; cbv -[Float32.round]; reflexivity).
  destruct E as (r & E). exists r. split; [exact E|].
  destruct (@step_metrics_in_range demo None cpu [b1; b2] w0 r _
              (or_introl (run_result _ _ E))) as (H0 & H1 & H2).
  refine (conj (conj H0 (H1 demo_aligned)) (H2 _)).
  intros x y lg. apply demo_loss_nonneg.
Defined.

Lemma empty_batch_raises_witness :
  In b_empty [b1; b_empty] /\
  (exists e, fst (@train_step demo None cpu [b1; b_empty] w0) = inl e) /\
  (exists e, fst (@test_step demo cpu [b1; b_empty] w0) = inl e) /\
  fst (@train_batch demo None cpu b_empty w0) = inl ZeroDivisionError /\
  fst (@test_batch demo cpu b_empty w0) = inl ZeroDivisionError.
Proof.
  assert (Hin : In b_empty [b1; b_empty]) by (right; left; reflexivity).
  split; [exact Hin|].
  destruct (@empty_batch_raises demo None cpu [b1; b_empty] [] w0 Hin)
    as (H1 & H2 & H3).
  split; [exact H1|]. split; [exact H2|].
  apply H3; [reflexivity|]. intros mode p bu. reflexivity.
Defined.

(** C8 (as the claim words it, refuted): on a batch for which the model
    answers with two rows of scores for one label, [torch.eq] broadcasts the
    label against both predictions; [test_step] and [train_step] complete and
    return the accuracy 2. *)
Lemma accuracy_above_one :
  (exists r,
     fst (@test_step demo cpu [b_wide] w0) = inr r /\ val_of (snd r) = 2%R) /\
  (exists r,
     fst (@train_step demo None cpu [b_wide] w0) = inr r /\
     val_of (snd r) = 2%R).
Proof.
  split; eexists; split.
  - rewrite test_step_values. unfold bind at 1. rewrite test_values_run.
    cbn [device_usable DEVICE cuda_is_available demo].
    cbn [collect]. unfold bind at 1. unfold b_wide.
    rewrite (@test_batch_run demo cpu [[1; 0]; [1; 0]]%R [0%Z]).
    cbn [device_usable DEVICE cuda_is_available demo forward fst snd].
    cbv zeta. rewrite accuracy_b_wide. reflexivity.
  - cbn. lra.
  - rewrite train_step_values. unfold bind at 1. rewrite train_values_run.
    cbn [device_usable DEVICE cuda_is_available demo].
    cbn [collect]. unfold bind at 1. unfold b_wide.
    rewrite (@train_batch_run demo None cpu [[1; 0]; [1; 0]]%R [0%Z]).
    cbn [device_usable DEVICE cuda_is_available demo forward fst snd].
    cbv zeta. rewrite accuracy_b_wide. reflexivity.
  - cbn. lra.
Qed.



End DemoFacts.

(** * The passes and the driver in the concrete setting *)

Module MoreDemoFacts.

Import Demo.

Lemma test_step_order_witness :
  exists r,
    fst (@test_step demo cpu [b1; b2] w0) = inr r /\
    let w' := snd (@test_step demo cpu [b1; b2] w0) in
    w_trace w' =
      [EModelTo cpu; EIterate;
       EBatchTo cpu; EEvalMode; EForward; ELoss; EAccuracy;
       EBatchTo cpu; EEvalMode; EForward; ELoss; EAccuracy] /\
    count_event EOptimizerStep (w_trace w') = 0 /\
    w_training w' = false.
Proof.
  assert (E : exists r, fst (@test_step demo cpu [b1; b2] w0) = inr r)
    by (eexists; cbv -[Float32.round]; reflexivity).
  destruct E as (r & E). exists r. split; [exact E|].
  destruct (@test_step_order demo cpu [b1; b2] w0 r _
              (DemoFacts.run_result _ _ E))
    as (Ht & _ & _ & Ho & _ & _ & _ & Hm & _).
  exact (conj Ht (conj Ho Hm)).
Defined.

Lemma train_leaves_eval_mode_witness :
  (0 < 1)%Z /\
  exists res,
    fst (@train demo None 1 cpu [b1; b2] [b1] w0) = inr res /\
    w_training (snd (@train demo None 1 cpu [b1; b2] [b1] w0)) = false /\
    w_device (snd (@train demo None 1 cpu [b1; b2] [b1] w0)) = cpu.
Proof.
  split; [lia|].
  assert (E : exists res,
             fst (@train demo None 1 cpu [b1; b2] [b1] w0) = inr res)
    by (eexists; cbv -[Float32.round]; reflexivity).
  destruct E as (res & E). exists res. split; [exact E|].
  exact (@train_leaves_eval_mode demo None 1 cpu [b1; b2] [b1] w0 res _
           ltac:(lia) (DemoFacts.run_result _ _ E)).
Defined.

Lemma train_counts_steps_witness :
  (0 <= 2)%Z /\
  exists res,
    fst (@train demo None 2 cpu [b1; b2] [b1] w0) = inr res /\
    Z.of_nat (w_opt_steps (snd (@train demo None 2 cpu [b1; b2] [b1] w0)))
      = 4%Z /\
    Z.of_nat (count_event EForward
                (w_trace (snd (@train demo None 2 cpu [b1; b2] [b1] w0))))
      = 6%Z.
Proof.
  split; [lia|].
  assert (E : exists res,
             fst (@train demo None 2 cpu [b1; b2] [b1] w0) = inr res)
    by (eexists; cbv -[Float32.round]; reflexivity).
  destruct E as (res & E). exists res. split; [exact E|].
  exact (@train_counts_steps demo None 2 cpu [b1; b2] [b1] w0 res _
           ltac:(lia) (DemoFacts.run_result _ _ E)).
Defined.

Lemma train_nonpositive_epochs_witness :
  (-3 <= 0)%Z /\
  @train demo None (-3) cpu [b1; b2] [b1] w0
    = (inr empty_result, log (ETqdmOpen 0) w0).
Proof.
  split; [lia|].
  exact (@train_nonpositive_epochs demo None (-3) cpu [b1; b2] [b1] w0
           ltac:(lia)).
Defined.

Lemma train_aborts_on_empty_loader_witness :
  (0 < 3)%Z /\ @device_usable demo cpu = true /\
  fst (@train demo None 3 cpu [] [b1] w0) = inl ZeroDivisionError /\
  fst (@train demo None 3 cpu [b1; b2] [] w0) = inl ZeroDivisionError /\
  w_opt_steps (snd (@train demo None 3 cpu [b1; b2] [] w0)) = 2 /\
  w_stdout (snd (@train demo None 3 cpu [b1; b2] [] w0)) = [].
Proof.
  split; [lia|]. split; [reflexivity|].
  destruct (@train_aborts_on_empty_loader demo None 3 cpu [b1; b2] [b1] w0
              ltac:(lia) eq_refl) as (H1 & H2).
  split; [now rewrite H1|].
  assert (E : exists r,
             fst (@train_step demo None cpu [b1; b2]
                    (log (ETqdmOpen (Z.to_nat 3)) w0)) = inr r)
    by (eexists; cbv -[Float32.round]; reflexivity).
  destruct E as (r & E).
  destruct (H2 r _ (DemoFacts.run_result _ _ E)) as (H3 & H4 & H5).
  rewrite H3. cbn [fst snd]. exact (conj eq_refl (conj H4 H5)).
Defined.

Lemma test_step_reads_only_the_model_witness :
  fst (@test_step demo cpu [b1; b2]
         (@mkWorld demo 10%Z 0 (Some 5%Z) true cuda 7%Z 3 4 [EForward] []))
  = fst (@test_step demo cpu [b1; b2] w0).
Proof.
  exact (@test_step_reads_only_the_model demo cpu [b1; b2]
           (@mkWorld demo 10%Z 0 (Some 5%Z) true cuda 7%Z 3 4 [EForward] [])
           w0 eq_refl eq_refl).
Defined.

Lemma train_step_discards_stale_state_witness :
  [b1; b2] <> [] /\ @device_usable demo cpu = true /\
  @train_step demo None cpu [b1; b2]
    (@mkWorld demo 10%Z 0 (Some 5%Z) true cuda 1%Z 0 0 [] [])
  = @train_step demo None cpu [b1; b2] w0.
Proof.
  split; [discriminate|]. split; [reflexivity|].
  exact (@train_step_discards_stale_state demo None cpu [b1; b2] w0
           (Some 5%Z) true cuda ltac:(discriminate) eq_refl).
Defined.

Lemma train_item_calls_are_safe_witness :
  exists r,
    fst (@train_step demo None cpu [b1; b2] w0) = inr r /\
    (exists t, item (fst r) = inr t) /\
    item (snd r) = inl AttributeError /\
    fst (@train demo None 2 cpu [b1; b2] [] w0) <> inl AttributeError.
Proof.
  assert (E : exists r, fst (@train_step demo None cpu [b1; b2] w0) = inr r)
    by (eexists; cbv -[Float32.round]; reflexivity).
  destruct E as (r & E). exists r. split; [exact E|].
  destruct (@train_item_calls_are_safe demo None 2 cpu [b1; b2] [] w0)
    as (H1 & H2).
  destruct (H1 None [b1; b2] w0 r _ (or_introl (DemoFacts.run_result _ _ E)))
    as (t & a & _ & Ht & Ha).
  split; [exists t; exact Ht|]. split; [exact Ha|exact H2].
Defined.

Lemma train_prints_completed_epochs_witness :
  (0 <= 2)%Z /\
  exists lines,
    w_stdout (snd (@train demo None 2 cpu [b1; b2] [b1] w0)) = lines /\
    map line_epoch lines = [1; 2].
Proof.
  split; [lia|].
  destruct (@train_prints_completed_epochs demo None 2 cpu [b1; b2] [b1] w0
              ltac:(lia)) as (lines & Ho & Hn & _ & _ & Hiff).
  exists lines. split; [exact Ho|].
  assert (Hlen : Z.of_nat (length lines) = 2%Z).
  { apply Hiff. eexists. cbv -[Float32.round]. reflexivity. }
  replace (length lines) with 2 in Hn by lia. exact Hn.
Defined.

End MoreDemoFacts.

(** * Facts about datasetup.py *)

Module DataSetupFacts.

Import DataSetup.

Lemma batches_concat {A} bs (l : list A) :
  forall cur, concat (batches_from bs cur l) = rev cur ++ l.
Proof.
  induction l as [|a l IH]; intros cur; cbn [batches_from].
  - destruct cur; cbn [concat]; now rewrite ?app_nil_r.
  - destruct (Nat.eqb (length (a :: cur)) bs).
    + cbn [concat]. rewrite IH. cbn [rev app]. now rewrite <- app_assoc.
    + rewrite IH. cbn [rev]. now rewrite <- app_assoc.
Qed.

Lemma batches_sizes {A} bs (l : list A) :
  forall cur,
    length cur < bs ->
    Forall (fun b => 1 <= length b <= bs) (batches_from bs cur l).
Proof.
  induction l as [|a l IH]; intros cur Hc; cbn [batches_from].
  - destruct cur as [|c cur]; constructor; [|constructor].
    rewrite length_rev. cbn [length] in *. lia.
  - destruct (Nat.eqb_spec (length (a :: cur)) bs) as [E|E].
    + constructor; [rewrite length_rev; lia|]. apply IH. cbn. lia.
    + apply IH. cbn [length] in *. lia.
Qed.

Lemma batches_full {A} bs (l : list A) :
  forall cur,
    length cur < bs ->
    Forall (fun b => length b = bs) (removelast (batches_from bs cur l)).
Proof.
  induction l as [|a l IH]; intros cur Hc; cbn [batches_from].
  - destruct cur; constructor.
  - destruct (Nat.eqb_spec (length (a :: cur)) bs) as [E|E].
    + assert (H0 : 0 < bs) by lia. specialize (IH [] H0).
      destruct (batches_from bs [] l) as [|b rest] eqn:Eb; [constructor|].
      change (removelast (rev (a :: cur) :: b :: rest))
        with (rev (a :: cur) :: removelast (b :: rest)).
      constructor; [now rewrite length_rev|exact IH].
    + apply IH. cbn [length] in *. lia.
Qed.

Lemma batches_count {A} bs (l : list A) :
  forall cur,
    length cur < bs ->
    length (batches_from bs cur l) = (length cur + length l + bs - 1) / bs.
Proof.
  induction l as [|a l IH]; intros cur Hc; cbn [batches_from].
  - destruct cur as [|c cur]; cbn [length] in *.
    + symmetry. apply Nat.div_small. lia.
    + apply (Nat.div_unique _ _ 1 (length cur)); lia.
  - destruct (Nat.eqb_spec (length (a :: cur)) bs) as [E|E]; cbn [length] in *.
    + rewrite IH by (cbn; lia). cbn [length].
      replace (length cur + S (length l) + bs - 1)
        with (1 * bs + (0 + length l + bs - 1)) by lia.
      rewrite Nat.div_add_l by lia. reflexivity.
    + rewrite IH by (cbn; lia). cbn [length]. f_equal. lia.
Qed.

Lemma concat_map_map {A B} (f : A -> B) (ll : list (list A)) :
  concat (map (map f) ll) = map f (concat ll).
Proof. now rewrite concat_map. Qed.

Lemma removelast_of_map {A B} (f : A -> B) (l : list A) :
  removelast (map f l) = map f (removelast l).
Proof.
  induction l as [|a [|b l] IH]; [reflexivity|reflexivity|].
  change (f a :: removelast (map f (b :: l)) = f a :: map f (removelast (b :: l))).
  now rewrite IH.
Qed.

Section LoaderFacts.

Variables Dir Name Image Sample : Type.
Variable ImageFolder : Dir -> error + folder Name Image.

Lemma batches_of_spec sigma (dl : loader Name Image Sample) :
  (0 < batch_size dl)%Z ->
  let order := if shuffle dl then sigma (samples (dataset dl))
               else samples (dataset dl) in
  let bs := batches_of sigma dl in
  concat (map fst bs) = map (fun s => transform dl (fst s)) order /\
  concat (map snd bs) = map snd order /\
  Forall (fun b => length (fst b) = length (snd b) /\
                   (1 <= Z.of_nat (length (snd b)) <= batch_size dl)%Z) bs /\
  Forall (fun b => Z.of_nat (length (snd b)) = batch_size dl) (removelast bs) /\
  length bs
    = (length order + Z.to_nat (batch_size dl) - 1) / Z.to_nat (batch_size dl).
Proof.
  intros Hb order. cbv zeta. unfold batches_of. fold order.
  set (n := Z.to_nat (batch_size dl)).
  assert (Hn : length (@nil (Image * Z)) < n) by (unfold n; cbn; lia).
  set (f := fun b : list (Image * Z) =>
              (map (fun s => transform dl (fst s)) b, map snd b)).
  split; [|split; [|split; [|split]]].
  - rewrite map_map. cbn [f fst].
    now rewrite concat_map_map, batches_concat.
  - rewrite map_map. cbn [f snd].
    now rewrite concat_map_map, batches_concat.
  - apply Forall_map. eapply Forall_impl; [|apply (@batches_sizes _ n order [] Hn)].
    intros b [H1 H2]. cbn [f fst snd]. rewrite !length_map.
    split; [reflexivity|]. unfold n in H2. lia.
  - rewrite removelast_of_map. apply Forall_map.
    eapply Forall_impl; [|apply (@batches_full _ n order [] Hn)].
    intros b H. cbn [f snd]. rewrite length_map, H. unfold n. lia.
  - rewrite length_map, (@batches_count _ n order [] Hn). reflexivity.
Qed.

Lemma create_dataloader_inv train test tr bs nw
    (trl tel : loader Name Image Sample) names :
  create_dataloader ImageFolder train test tr bs nw = inr (trl, tel, names) ->
  exists f f',
    ImageFolder train = inr f /\ ImageFolder test = inr f' /\
    (0 <= nw)%Z /\ (0 < bs)%Z /\
    trl = mkLoader f tr bs true /\ tel = mkLoader f' tr bs false /\
    names = classes f.
Proof.
  unfold create_dataloader, DataLoader.
  destruct (ImageFolder train) as [e|f]; [discriminate|].
  destruct (ImageFolder test) as [e|f']; [discriminate|].
  destruct (Z.ltb_spec nw 0) as [Hw|Hw]; [discriminate|].
  destruct (Z.leb_spec bs 0) as [Hs|Hs]; [discriminate|].
  intros H. inversion H; subst. exists f, f'. repeat split; auto; lia.
Qed.

Lemma iterate_run sigma (dl : loader Name Image Sample) :
  ((sys_maxsize < batch_size dl)%Z -> iterate sigma dl = inl ValueError) /\
  ((batch_size dl <= sys_maxsize)%Z ->
   iterate sigma dl = inr (batches_of sigma dl)).
Proof.
  unfold iterate.
  destruct (Z.ltb_spec sys_maxsize (batch_size dl)); split; intros;
    reflexivity || lia.
Qed.

Lemma iterate_success sigma (dl : loader Name Image Sample) bs :
  iterate sigma dl = inr bs -> bs = batches_of sigma dl.
Proof.
  unfold iterate. destruct (sys_maxsize <? batch_size dl)%Z; [discriminate|].
  intros H. now inversion H.
Qed.

(** X8: [create_dataloader] reads the training directory first, then the
    test directory, and only then are [num_workers] and [batch_size] checked:
    a directory that cannot be read is reported even when the batch size is
    bad too; a negative [num_workers] or a [batch_size] of 0 or less is a
    [ValueError].  Otherwise the result is the shuffling loader over the
    training folder, the non-shuffling loader over the test folder, both with
    the given transform and batch size, and the class names of the training
    folder, whatever the classes of the test folder are. *)
Theorem create_dataloader_outcome train test (tr : Image -> Sample) bs nw :
  (forall e, ImageFolder train = inl e ->
             create_dataloader ImageFolder train test tr bs nw = inl e) /\
  (forall f e, ImageFolder train = inr f -> ImageFolder test = inl e ->
               create_dataloader ImageFolder train test tr bs nw = inl e) /\
  (forall f f', ImageFolder train = inr f -> ImageFolder test = inr f' ->
     ((nw < 0)%Z \/ (bs <= 0)%Z ->
      create_dataloader ImageFolder train test tr bs nw = inl ValueError) /\
     ((0 <= nw)%Z -> (0 < bs)%Z ->
      create_dataloader ImageFolder train test tr bs nw
      = inr (mkLoader f tr bs true, mkLoader f' tr bs false, classes f))).
Proof.
  unfold create_dataloader, DataLoader.
  split; [|split].
  - intros e ->. reflexivity.
  - intros f e -> ->. reflexivity.
  - intros f f' -> ->. split.
    + intros [H|H].
      * destruct (Z.ltb_spec nw 0); [reflexivity|lia].
      * destruct (Z.ltb_spec nw 0); [reflexivity|].
        destruct (Z.leb_spec bs 0); [reflexivity|lia].
    + intros H1 H2.
      destruct (Z.ltb_spec nw 0); [lia|].
      destruct (Z.leb_spec bs 0); [lia|]. reflexivity.
Qed.

(** X9: iterating the test loader that [create_dataloader] returns raises
    [ValueError] when [batch_size] is above [sys.maxsize], which the
    constructor has let through.  Otherwise it yields the samples of the test
    folder in their order, transformed, each with its own label; every batch
    has as many inputs as labels, at least one and at most [batch_size] of
    them, every batch but the last has exactly [batch_size], and there are
    [len(loader)] batches. *)
Theorem test_loader_keeps_order train test tr bs nw
    (trl tel : loader Name Image Sample) names sigma :
  create_dataloader ImageFolder train test tr bs nw = inr (trl, tel, names) ->
  ImageFolder test = inr (dataset tel) /\
  ((sys_maxsize < bs)%Z -> iterate sigma tel = inl ValueError) /\
  ((bs <= sys_maxsize)%Z ->
   exists batches,
     iterate sigma tel = inr batches /\
     concat (map fst batches)
     = map (fun s => tr (fst s)) (samples (dataset tel)) /\
     concat (map snd batches) = map snd (samples (dataset tel)) /\
     Forall (fun b => length (fst b) = length (snd b) /\
                      (1 <= Z.of_nat (length (snd b)) <= bs)%Z) batches /\
     Forall (fun b => Z.of_nat (length (snd b)) = bs) (removelast batches) /\
     length batches = len tel).
Proof.
  intros H. apply create_dataloader_inv in H.
  destruct H as (f & f' & _ & Hte & _ & Hb & _ & -> & _).
  pose proof (batches_of_spec sigma (mkLoader f' tr bs false) Hb) as I.
  destruct (iterate_run sigma (mkLoader f' tr bs false)) as (Hbig & Hok).
  cbn [shuffle batch_size dataset transform] in *. cbv zeta in I.
  split; [exact Hte|]. split; [exact Hbig|].
  intros Hs. eexists. split; [exact (Hok Hs)|]. exact I.
Qed.

End LoaderFacts.

Section FeedingTheEngine.

Context {C : Collaborators}.
Variables Dir Name Image Sample : Type.
Variable ImageFolder : Dir -> error + folder Name Image.
Variable collate : list Sample -> Input.

Lemma collated_well_shaped (dl : loader Name Image Sample) sigma :
  (0 < batch_size dl)%Z ->
  (forall b, In b (collated collate (batches_of sigma dl)) ->
     aligned b /\
     forall mode p bu,
       Forall (fun row => row <> []) (fst (forward mode p bu (fst b)))) ->
  Forall well_shaped (collated collate (batches_of sigma dl)).
Proof.
  intros Hb Hm. apply Forall_forall. intros b Hin.
  destruct (Hm b Hin) as (Ha & Hr). split; [|split; assumption].
  destruct (batches_of_spec sigma dl Hb) as (_ & _ & Hs & _).
  unfold collated in Hin. apply in_map_iff in Hin.
  destruct Hin as (b0 & <- & Hin0). rewrite Forall_forall in Hs.
  destruct (Hs b0 Hin0) as (_ & H1 & _). cbn [snd].
  destruct (snd b0); [cbn in H1; lia|discriminate].
Qed.

Lemma collated_nonempty (dl : loader Name Image Sample) sigma :
  (0 < batch_size dl)%Z ->
  samples (dataset dl) <> [] ->
  (shuffle dl = true ->
   Permutation (sigma (samples (dataset dl))) (samples (dataset dl))) ->
  collated collate (batches_of sigma dl) <> [].
Proof.
  intros Hb Hs Hp E. apply (f_equal (@length _)) in E.
  unfold collated in E. rewrite length_map in E.
  destruct (batches_of_spec sigma dl Hb) as (_ & _ & _ & _ & Hl).
  rewrite Hl in E. cbn [length] in E.
  set (n := Z.to_nat (batch_size dl)) in *.
  assert (Hn : 0 < n) by (unfold n; lia).
  assert (Hlen : 0 < length (if shuffle dl then sigma (samples (dataset dl))
                             else samples (dataset dl))).
  { destruct (shuffle dl); [rewrite (Permutation_length (Hp eq_refl))|];
      destruct (samples (dataset dl)); cbn; try congruence; lia. }
  apply Nat.div_small_iff in E; lia.
Qed.

(** X11: the loaders of [create_dataloader] are what [train_step] and
    [test_step] need.  When both folders hold at least one sample (as
    [ImageFolder] guarantees), an iteration over each loader has given its
    batches (the batch size is not above [sys.maxsize]), the device is usable
    and the model answers each collated batch with one non-empty row of
    scores per label, a pass of [train_step] over the batches of the training
    loader and a pass of [test_step] over those of the test loader complete
    and return a tensor and a float: no batch is empty and no loader is
    empty, so neither division by zero of the engine can occur. *)
Theorem loaders_fit_the_engine train test tr bs nw
    (trl tel : loader Name Image Sample) names sigma train_batches
    test_batches s d w :
  create_dataloader ImageFolder train test tr bs nw = inr (trl, tel, names) ->
  iterate sigma trl = inr train_batches ->
  iterate sigma tel = inr test_batches ->
  samples (dataset trl) <> [] -> samples (dataset tel) <> [] ->
  Permutation (sigma (samples (dataset trl))) (samples (dataset trl)) ->
  device_usable d = true ->
  (forall b,
     In b (collated collate train_batches) \/
     In b (collated collate test_batches) ->
     aligned b /\
     forall mode p bu,
       Forall (fun row => row <> []) (fst (forward mode p bu (fst b)))) ->
  (bs <= sys_maxsize)%Z /\
  (exists t a w',
     train_step s d (collated collate train_batches) w
     = (inr (Tensor t, PyFloat a), w')) /\
  (exists t a w',
     test_step d (collated collate test_batches) w
     = (inr (Tensor t, PyFloat a), w')).
Proof.
  intros H Itr Ite Htr Hte Hp Hd Hm.
  apply create_dataloader_inv in H.
  destruct H as (f & f' & _ & _ & _ & Hb & -> & -> & _).
  assert (Hs : (bs <= sys_maxsize)%Z).
  { unfold iterate in Itr. cbn [batch_size] in Itr.
    destruct (Z.ltb_spec sys_maxsize bs); [discriminate|assumption]. }
  apply iterate_success in Itr, Ite. subst train_batches test_batches.
  cbn [dataset] in *. split; [exact Hs|]. split.
  - apply train_step_completes; [assumption| |].
    + apply collated_nonempty; auto.
    + apply collated_well_shaped; [assumption|]. intros b Hin. apply Hm. auto.
  - apply test_step_completes; [assumption| |].
    + apply collated_nonempty; [assumption|assumption|discriminate].
    + apply collated_well_shaped; [assumption|]. intros b Hin. apply Hm. auto.
Qed.

End FeedingTheEngine.

Lemma create_dataloader_outcome_witness :
  create_dataloader demo_folder missing_dir test_dir demo_transform 0 0
    = inl FileNotFoundError /\
  create_dataloader demo_folder train_dir missing_dir demo_transform 2 (-1)
    = inl FileNotFoundError /\
  create_dataloader demo_folder train_dir test_dir demo_transform 0 4
    = inl ValueError /\
  exists trl tel,
    create_dataloader demo_folder train_dir test_dir demo_transform 2 4
      = inr (trl, tel, [pizza; steak; sushi]) /\
    shuffle trl = true /\ shuffle tel = false.
Proof.
  destruct (create_dataloader_outcome demo_folder missing_dir test_dir
              demo_transform 0 0) as (E1 & _ & _).
  destruct (create_dataloader_outcome demo_folder train_dir missing_dir
              demo_transform 2 (-1)) as (_ & E2 & _).
  destruct (create_dataloader_outcome demo_folder train_dir test_dir
              demo_transform 0 4) as (_ & _ & E3).
  destruct (create_dataloader_outcome demo_folder train_dir test_dir
              demo_transform 2 4) as (_ & _ & E4).
  split; [exact (E1 _ eq_refl)|].
  split; [exact (E2 _ _ eq_refl eq_refl)|].
  split; [apply (proj1 (E3 _ _ eq_refl eq_refl)); right; lia|].
  eexists; eexists. split;
    [apply (proj2 (E4 _ _ eq_refl eq_refl)); lia|].
  split; reflexivity.
Defined.

Lemma test_loader_keeps_order_witness :
  exists trl tel names,
    create_dataloader demo_folder train_dir test_dir demo_transform 2 0
      = inr (trl, tel, names) /\
    (2 <= sys_maxsize)%Z /\
    exists batches,
      iterate (@rev _) tel = inr batches /\
      concat (map fst batches) = [24; 42; 44] /\
      concat (map snd batches) = [0; 1; 1]%Z /\
      length batches = 2 /\ len tel = 2.
Proof.
  assert (E : exists trl tel names,
             create_dataloader demo_folder train_dir test_dir demo_transform
               2 0 = inr (trl, tel, names))
    by (do 3 eexists; reflexivity).
  destruct E as (trl & tel & names & E). exists trl, tel, names.
  split; [exact E|].
  assert (Hs : (2 <= sys_maxsize)%Z) by (unfold sys_maxsize; lia).
  split; [exact Hs|].
  destruct (test_loader_keeps_order demo_folder train_dir test_dir
              demo_transform 2 0 (@rev _) E) as (Hf & _ & H).
  destruct (H Hs) as (batches & Hi & H1 & H2 & _ & _ & H5).
  exists batches. inversion E; subst. cbn in H1, H2.
  split; [exact Hi|]. split; [exact H1|]. split; [exact H2|].
  split; [exact H5|reflexivity].
Defined.

Lemma loaders_fit_the_engine_witness :
  exists trl tel names train_batches test_batches,
    create_dataloader score_folder train_dir test_dir (fun x => x) 2 0
      = inr (trl, tel, names) /\
    iterate (@rev _) trl = inr train_batches /\
    iterate (@rev _) tel = inr test_batches /\
    (exists t a w',
       @train_step Demo.demo None cpu
         (collated (C := Demo.demo) (fun xs => xs) train_batches) Demo.w0
       = (inr (Tensor t, PyFloat a), w')) /\
    (exists t a w',
       @test_step Demo.demo cpu
         (collated (C := Demo.demo) (fun xs => xs) test_batches) Demo.w0
       = (inr (Tensor t, PyFloat a), w')).
Proof.
  assert (E : exists trl tel names,
             create_dataloader score_folder train_dir test_dir
               (fun x : list R => x) 2 0 = inr (trl, tel, names))
    by (do 3 eexists; reflexivity).
  destruct E as (trl & tel & names & E). exists trl, tel, names.
  assert (Itr : exists bs, iterate (@rev _) trl = inr bs)
    by (inversion E; subst; eexists; reflexivity).
  assert (Ite : exists bs, iterate (@rev _) tel = inr bs)
    by (inversion E; subst; eexists; reflexivity).
  destruct Itr as (train_batches & Itr), Ite as (test_batches & Ite).
  exists train_batches, test_batches.
  split; [exact E|]. split; [exact Itr|]. split; [exact Ite|].
  apply (@loaders_fit_the_engine Demo.demo _ _ _ _ score_folder
           (fun xs => xs) train_dir test_dir (fun x => x) 2 0 trl tel names
           (@rev _) train_batches test_batches None cpu Demo.w0 E Itr Ite);
    inversion E; subst; cbn [dataset samples].
  - discriminate.
  - discriminate.
  - apply Permutation_sym, Permutation_rev.
  - reflexivity.
  - inversion Itr; subst. inversion Ite; subst. intros b Hin. split.
    + intros mode p bu.
      destruct Hin as [[<-|[<-|[]]]|[<-|[]]]; reflexivity.
    + intros mode p bu.
      destruct Hin as [[<-|[<-|[]]]|[<-|[]]];
        repeat constructor; discriminate.
Defined.

End DataSetupFacts.

(** * Facts about data.py *)

Module DataScriptFacts.

Import DataScript.

Lemma bytes_eqb_eq (a b : bytes) : bytes_eqb a b = true <-> a = b.
Proof.
  revert b. induction a as [|x a IH]; intros [|y b]; cbn;
    try (split; [discriminate|discriminate]); try tauto.
  rewrite andb_true_iff, IH. split.
  - intros [H ->]. apply Byte.byte_dec_bl in H. now subst.
  - intros H. inversion H; subst. split; [now apply Byte.byte_dec_lb|reflexivity].
Qed.

Lemma lookup_app p (a b : list (bytes * bytes)) :
  lookup p (a ++ b) =
  match lookup p a with Some c => Some c | None => lookup p b end.
Proof.
  induction a as [|[q c] a IH]; cbn; [reflexivity|].
  destruct (bytes_eqb p q); [reflexivity|exact IH].
Qed.

Lemma lookup_written p ms :
  forall files,
    lookup p (written ms files) =
    match lookup p (rev ms) with Some c => Some c | None => lookup p files end.
Proof.
  unfold written. induction ms as [|[q c] ms IH]; intros files;
    cbn [fold_left rev]; [reflexivity|].
  rewrite IH, lookup_app. cbn [lookup].
  destruct (lookup p (rev ms)); [reflexivity|].
  destruct (bytes_eqb p q); reflexivity.
Qed.

Lemma lookup_member p c (ms : list (bytes * bytes)) :
  NoDup (map fst ms) -> In (p, c) ms -> lookup p (rev ms) = Some c.
Proof.
  induction ms as [|[q c'] ms IH]; intros Hnd Hin; [contradiction|].
  cbn [map fst] in Hnd. inversion Hnd as [|? ? Hq Hnd']; subst.
  cbn [rev]. rewrite lookup_app. destruct Hin as [E|Hin].
  - inversion E; subst.
    assert (Hnone : lookup p (rev ms) = None).
    { clear -Hq. induction ms as [|[q c0] ms IH]; [reflexivity|].
      cbn [rev]. rewrite lookup_app, IH.
      - cbn. destruct (bytes_eqb p q) eqn:E; [|reflexivity].
        apply bytes_eqb_eq in E. subst. exfalso. apply Hq. now left.
      - intros H. apply Hq. now right. }
    rewrite Hnone. cbn. now rewrite (proj2 (bytes_eqb_eq p p) eq_refl).
  - now rewrite (IH Hnd' Hin).
Qed.

(** An extraction that does not raise has written every member. *)
Lemma extractall_written write_failure ms :
  forall files,
    fst (extractall write_failure ms files) = inr tt ->
    extractall write_failure ms files = (inr tt, written ms files).
Proof.
  induction ms as [|m ms IH]; intros files H; [reflexivity|].
  cbn [extractall] in *. unfold written. cbn [fold_left].
  destruct (write_failure m files) as [[e files']|]; [discriminate H|].
  now apply IH.
Qed.

Lemma extractall_outcome write_failure ms files :
  (exists e files', extractall write_failure ms files = (inl e, files')) \/
  extractall write_failure ms files = (inr tt, written ms files).
Proof.
  destruct (extractall write_failure ms files) as [[e|[]] files'] eqn:E.
  - left. eauto.
  - right. rewrite <- E. apply extractall_written. now rewrite E.
Qed.

Ltac run_script :=
  unfold script, and_then, ensure_folder, download, unzip, remove_archive,
    print, on_disk; cbn.

(** The script up to the extraction, when nothing is in the way and the
    server answers with an archive. *)
Lemma script_run_archive response members write_failure (s : state)
    content ms :
  startable (fs s) = true ->
  response = Some content -> members content = Some ms ->
  script response members write_failure s
  = match extractall write_failure ms (existing (fs s)) with
    | (inl e, files') =>
        (inl e,
         mkState (DataDir (MainDir files') (File content))
                 (stdout s ++ [first_message (fs s); Downloading; Unzipping]))
    | (inr _, files') =>
        (inr tt,
         mkState (DataDir (MainDir files') Absent)
                 (stdout s ++ [first_message (fs s); Downloading; Unzipping;
                               RemovedZip]))
    end.
Proof.
  intros Hs Hr Hm.
  destruct s as [[| |[| |files] [|c|]] out]; try discriminate Hs;
    run_script; rewrite Hr; cbn; rewrite Hm; cbn;
    match goal with
    | |- context [extractall write_failure ms ?f] =>
        destruct (extractall write_failure ms f) as [[e|[]] files']
    end; cbn; rewrite <- ?app_assoc; reflexivity.
Qed.

Lemma script_run_ok response members write_failure (s : state) content ms :
  startable (fs s) = true ->
  response = Some content -> members content = Some ms ->
  fst (extractall write_failure ms (existing (fs s))) = inr tt ->
  script response members write_failure s
  = (inr tt,
     mkState (DataDir (MainDir (written ms (existing (fs s)))) Absent)
             (stdout s ++ [first_message (fs s); Downloading; Unzipping;
                           RemovedZip])).
Proof.
  intros Hs Hr Hm He.
  rewrite (@script_run_archive response members write_failure s content ms
             Hs Hr Hm).
  now rewrite (extractall_written _ _ _ He).
Qed.

Lemma script_no_response response members write_failure (s : state) :
  startable (fs s) = true -> response = None ->
  script response members write_failure s
  = (inl RequestException,
     mkState (DataDir (MainDir (existing (fs s))) (File []))
             (stdout s ++ [first_message (fs s)])).
Proof.
  intros Hs Hr.
  destruct s as [[| |[| |files] [|c|]] out]; try discriminate Hs;
    run_script; rewrite Hr; reflexivity.
Qed.

Lemma script_bad_archive response members write_failure (s : state) content :
  startable (fs s) = true ->
  response = Some content -> members content = None ->
  script response members write_failure s
  = (inl BadZipFile,
     mkState (DataDir (MainDir (existing (fs s))) (File content))
             (stdout s ++ [first_message (fs s); Downloading])).
Proof.
  intros Hs Hr Hm.
  destruct s as [[| |[| |files] [|c|]] out]; try discriminate Hs;
    run_script; rewrite Hr; cbn; rewrite Hm; cbn;
    rewrite <- ?app_assoc; reflexivity.
Qed.

Lemma script_not_startable response members write_failure (s : state) :
  startable (fs s) = false ->
  exists e, fst (script response members write_failure s) = inl e /\
            (e = NotADirectoryError \/ e = FileExistsError \/
             e = IsADirectoryError).
Proof.
  intros Hs.
  destruct s as [[| |[| |files] [|c|]] out]; try discriminate Hs;
    run_script; eauto.
Qed.

(** X12: when nothing is in the way, the server answers, the answer is an
    archive and zipfile can write each of its members, the script completes:
    the folder exists, the archive file is gone, four lines were printed (the
    first tells whether the folder was already there), and below the folder
    every path holds what the last member of that path in the archive holds,
    or, for a path the archive does not have, what it held before.  With
    distinct member paths every member is there with its content. *)
Theorem script_success response members write_failure (s : state) content ms :
  startable (fs s) = true ->
  response = Some content -> members content = Some ms ->
  fst (extractall write_failure ms (existing (fs s))) = inr tt ->
  script response members write_failure s
  = (inr tt,
     mkState (DataDir (MainDir (written ms (existing (fs s)))) Absent)
             (stdout s ++ [first_message (fs s); Downloading; Unzipping;
                           RemovedZip])) /\
  (forall p,
     lookup p (written ms (existing (fs s))) =
     match lookup p (rev ms) with
     | Some c => Some c
     | None => lookup p (existing (fs s))
     end) /\
  (NoDup (map fst ms) ->
   forall p c, In (p, c) ms ->
               lookup p (written ms (existing (fs s))) = Some c).
Proof.
  intros Hs Hr Hm He. split; [|split].
  - exact (@script_run_ok response members write_failure s content ms
             Hs Hr Hm He).
  - intros p. apply lookup_written.
  - intros Hnd p c Hin. rewrite lookup_written.
    now rewrite (@lookup_member p c ms Hnd Hin).
Qed.

(** X13: when the request fails, the script stops with its exception, but
    the archive file has already been created: an empty file is left at its
    path, in place of whatever was there.  The folder has been created if it
    was missing; its files are untouched. *)
Theorem failed_download_leaves_empty_archive response members write_failure
    (s : state) :
  startable (fs s) = true -> response = None ->
  script response members write_failure s
  = (inl RequestException,
     mkState (DataDir (MainDir (existing (fs s))) (File []))
             (stdout s ++ [first_message (fs s)])).
Proof.
  intros Hs Hr.
  exact (@script_no_response response members write_failure s Hs Hr).
Qed.

(** X14: when the server answers with bytes that are no zip archive (an
    error page, say), the script stops with [BadZipFile] and leaves the
    downloaded file at the path of the archive; nothing is extracted. *)
Theorem bad_archive_is_left_behind response members write_failure (s : state)
    content :
  startable (fs s) = true ->
  response = Some content -> members content = None ->
  script response members write_failure s
  = (inl BadZipFile,
     mkState (DataDir (MainDir (existing (fs s))) (File content))
             (stdout s ++ [first_message (fs s); Downloading])).
Proof.
  intros Hs Hr Hm.
  exact (@script_bad_archive response members write_failure s content
           Hs Hr Hm).
Qed.

(** X16: the script succeeds exactly when nothing is in the way, the server
    answers, the answer is an archive and zipfile can write each of its
    members.  When a member cannot be written, the script stops with the
    exception of zipfile after it has printed that it unzips, and the
    downloaded archive stays where it is, next to the members written so
    far.  A [FileNotFoundError] can only come from the extraction: the folder
    is made before the archive is opened.  When [data] or the folder is a
    regular file the script stops at once and changes nothing. *)
Theorem script_outcomes response members write_failure (s : state) :
  (fst (script response members write_failure s) = inr tt <->
   startable (fs s) = true /\
   exists content ms,
     response = Some content /\ members content = Some ms /\
     fst (extractall write_failure ms (existing (fs s))) = inr tt) /\
  (forall content ms e files',
     startable (fs s) = true ->
     response = Some content -> members content = Some ms ->
     extractall write_failure ms (existing (fs s)) = (inl e, files') ->
     script response members write_failure s
     = (inl e,
        mkState (DataDir (MainDir files') (File content))
                (stdout s ++ [first_message (fs s); Downloading; Unzipping]))) /\
  (fst (script response members write_failure s) = inl FileNotFoundError ->
   exists content ms,
     response = Some content /\ members content = Some ms /\
     fst (extractall write_failure ms (existing (fs s)))
     = inl FileNotFoundError) /\
  (fs s = DataIsFile ->
   script response members write_failure s = (inl NotADirectoryError, s)) /\
  (forall z, fs s = DataDir MainIsFile z ->
   script response members write_failure s = (inl FileExistsError, s)).
Proof.
  assert (Hcases :
    forall r, fst (script response members write_failure s) = r ->
      (startable (fs s) = true /\
       exists content ms,
         response = Some content /\ members content = Some ms /\
         fst (extractall write_failure ms (existing (fs s))) = r) \/
      (r <> inr tt /\ r <> inl FileNotFoundError)).
  { intros r Hr. destruct (startable (fs s)) eqn:Hs.
    - destruct response as [content|] eqn:Er.
      + destruct (members content) as [ms|] eqn:Hm.
        * left. split; [reflexivity|]. exists content, ms.
          split; [reflexivity|]. split; [assumption|].
          rewrite (@script_run_archive (Some content) members write_failure
                     s content ms Hs eq_refl Hm) in Hr.
          destruct (extractall write_failure ms (existing (fs s)))
            as [[e|[]] files']; exact Hr.
        * right.
          rewrite (@script_bad_archive (Some content) members write_failure
                     s content Hs eq_refl Hm) in Hr.
          subst r. split; discriminate.
      + right.
        rewrite (@script_no_response None members write_failure s Hs eq_refl)
          in Hr.
        subst r. split; discriminate.
    - right.
      destruct (@script_not_startable response members write_failure s Hs)
        as (e & He & Hk).
      rewrite He in Hr. subst r.
      split; [discriminate|]. intros H. inversion H; subst.
      destruct Hk as [Hk|[Hk|Hk]]; discriminate Hk. }
  split; [|split; [|split; [|split]]].
  - split.
    + intros H. destruct (Hcases _ H) as [Hok|[Hno _]]; [exact Hok|].
      now contradiction Hno.
    + intros (Hs & content & ms & Hr & Hm & He).
      now rewrite (@script_run_ok response members write_failure s content ms
                     Hs Hr Hm He).
  - intros content ms e files' Hs Hr Hm He.
    rewrite (@script_run_archive response members write_failure s content ms
               Hs Hr Hm).
    now rewrite He.
  - intros H. destruct (Hcases _ H) as [(_ & Hok)|[_ Hno]]; [exact Hok|].
    now contradiction Hno.
  - intros E. destruct s as [d out]. cbn in E. subst. reflexivity.
  - intros z E. destruct s as [d out]. cbn in E. subst. reflexivity.
Qed.

Lemma script_success_witness :
  startable NoData = true /\
  script (Some demo_archive) demo_members demo_write_failure
    (mkState NoData [])
  = (inr tt,
     mkState (DataDir (MainDir [([Byte.x62], [Byte.x02]);
                                ([Byte.x61], [Byte.x01])]) Absent)
             [CreatingFolder; Downloading; Unzipping; RemovedZip]) /\
  lookup [Byte.x61]
    (written [([Byte.x61], [Byte.x01]); ([Byte.x62], [Byte.x02])] [])
  = Some [Byte.x01].
Proof.
  destruct (@script_success (Some demo_archive) demo_members
              demo_write_failure (mkState NoData []) demo_archive
              [([Byte.x61], [Byte.x01]); ([Byte.x62], [Byte.x02])]
              eq_refl eq_refl eq_refl eq_refl) as (H1 & _ & H3).
  split; [reflexivity|]. split; [exact H1|].
  apply H3; [|left; reflexivity].
  repeat constructor; cbn; intuition discriminate.
Defined.

Lemma failed_download_leaves_empty_archive_witness :
  script None demo_members demo_write_failure
    (mkState (DataDir (MainDir [([Byte.x61], [Byte.x01])])
                (File [Byte.x07])) [])
  = (inl RequestException,
     mkState (DataDir (MainDir [([Byte.x61], [Byte.x01])]) (File []))
             [SkippingFolder]).
Proof.
  exact (@failed_download_leaves_empty_archive None demo_members
           demo_write_failure
           (mkState (DataDir (MainDir [([Byte.x61], [Byte.x01])])
                       (File [Byte.x07])) [])
           eq_refl eq_refl).
Defined.

Lemma bad_archive_is_left_behind_witness :
  script (Some [Byte.x3c]) demo_members demo_write_failure (mkState NoData [])
  = (inl BadZipFile,
     mkState (DataDir (MainDir []) (File [Byte.x3c]))
             [CreatingFolder; Downloading]).
Proof.
  exact (@bad_archive_is_left_behind (Some [Byte.x3c]) demo_members
           demo_write_failure (mkState NoData []) [Byte.x3c]
           eq_refl eq_refl eq_refl).
Defined.

Lemma script_outcomes_witness :
  fst (script (Some demo_archive) demo_members demo_write_failure
         (mkState NoData [])) = inr tt /\
  script (Some clashing_archive) demo_members demo_write_failure
    (mkState NoData [])
  = (inl NotADirectoryError,
     mkState (DataDir (MainDir [([Byte.x61], [Byte.x01])])
                (File clashing_archive))
             [CreatingFolder; Downloading; Unzipping]) /\
  script (Some demo_archive) demo_members demo_write_failure
    (mkState DataIsFile [])
  = (inl NotADirectoryError, mkState DataIsFile []) /\
  script (Some demo_archive) demo_members demo_write_failure
    (mkState (DataDir MainIsFile Absent) [])
  = (inl FileExistsError, mkState (DataDir MainIsFile Absent) []).
Proof.
  destruct (@script_outcomes (Some demo_archive) demo_members
              demo_write_failure (mkState NoData [])) as (H1 & _).
  destruct (@script_outcomes (Some clashing_archive) demo_members
              demo_write_failure (mkState NoData [])) as (_ & H4 & _).
  destruct (@script_outcomes (Some demo_archive) demo_members
              demo_write_failure (mkState DataIsFile []))
    as (_ & _ & _ & H2 & _).
  destruct (@script_outcomes (Some demo_archive) demo_members
              demo_write_failure (mkState (DataDir MainIsFile Absent) []))
    as (_ & _ & _ & _ & H3).
  split; [|split; [|split; [exact (H2 eq_refl)|exact (H3 _ eq_refl)]]].
  - apply H1. split; [reflexivity|].
    exists demo_archive,
      [([Byte.x61], [Byte.x01]); ([Byte.x62], [Byte.x02])].
    split; [reflexivity|]. split; reflexivity.
  - exact (H4 clashing_archive
             [([Byte.x61], [Byte.x01]);
              ([Byte.x61; Byte.x2f; Byte.x62], [Byte.x02])]
             NotADirectoryError [([Byte.x61], [Byte.x01])]
             eq_refl eq_refl eq_refl eq_refl).
Defined.

End DataScriptFacts.
